(** * findLongest.cpp: longest words made of other words

    A shallow embedding of [src/findLongest.cpp] and the properties of its
    word store, its greedy decomposition search and its longest-first scan.

    Modelling choices, shared by the whole file.
    - A [std::string] is a list of characters ([list ascii]); it may hold
      any byte, the NUL byte included.
    - [FLStringSet] ([std::unordered_set<std::string>]) is a [gset word];
      [FLLengthMap] ([std::unordered_map<size_t, std::vector<std::string *>>])
      is a [gmap nat (list word)].  The vectors hold pointers to the
      elements of the set; these elements are never modified and are not
      moved by a rehash, so a pointer is modelled by the string it points to.
    - The counters of type [int] and [size_t] are natural numbers: lengths
      and counts are taken below 2^31, where the conversions between
      [size_t] and [int] are exact.  The one wrap-around the code relies on,
      [word.length() - 1] for an empty word (the loop is then not entered),
      is what truncated subtraction on [nat] gives as well.
    - The global flags [kDoDebug] and [kDoPreSort] are explicit arguments.
      What the program prints is modelled as a list of [event]s, one per
      [printf]; the lines printed by a recursive call are kept grouped under
      the line that announces the call.
    - [std::sort] returns its range sorted for the comparison it is given.
      Where the comparison leaves two elements unordered, which
      [sizeHashSortFunction] does for two words with the same bytes before a
      NUL byte, the order of the two is not fixed by the source; the model
      keeps them in the order they had, as the insertion pass does with
      which [std::sort] sorts a short range. *)

From Stdlib Require Import Ascii String.
From stdpp Require Import gmap strings list sorting lexico.

#[local] Set Warnings "-register-all,-clear-no-such-hyp".

Local Open Scope nat_scope.

(** ** Strings *)

Abbreviation word := (list ascii).

(** A string literal as a [word]. *)
Definition str (s : string) : word := list_ascii_of_string s.

(** [s.substr(pos, len)]: the characters from [pos], at most [len] of them.
    [std::string::substr] throws when [pos > s.size()]; the program calls
    it with [pos] 0 or [sublen], which is at most [s.size() - 1]. *)
Definition substr (s : word) (pos len : nat) : word := take len (drop pos s).

(** ** Printed lines *)

Inductive event : Type :=
  | Testing (partWord : word)
      (* "Testing partial word %s" *)
  | MatchPartial (partWord : word) (sublen : nat)
      (* "Match found with partial word %s, start 0, length %d" *)
  | MatchRemaining (remainingString : word)
      (* "Match found with remaining string %s" *)
  | Calling (remainingString : word) (lines : list event)
      (* "Calling recursive function with remaining string %s", followed by
         the lines of that call *)
  | NotMade (w : word)
      (* "Word %s is not made of other words in the set" *)
  | Trying (w : word)
      (* "Trying word %s" *)
  | IsMade (w : word)
      (* "Word %s is made of other words." *)
  | NotInserted
      (* "ERROR:  A string was not inserted into the string set." *)
  | Report (firstWord secondWord : word) (count : nat).
      (* "First word found is %s, second word found is %s, total count
         found is %d." *)

(** [if(kDoDebug) printf(...)] *)
Definition debug (kDoDebug : bool) (e : event) : list event :=
  if kDoDebug then [e] else [].

(** The lines in the order they are printed. *)
Fixpoint printed (e : event) : list event :=
  match e with
  | Calling r lines => Calling r [] :: concat (map printed lines)
  | _ => [e]
  end.

(** ** wordIsMadeOfOtherWords *)

(** [stringSet->count(s) > 0] *)
Definition contains (stringSet : gset word) (s : word) : bool :=
  bool_decide (s ∈ stringSet).

(** The [while(sublen > 0)] loop of [wordIsMadeOfOtherWords], with the
    recursive call as the argument [self].  [None] stands for a recursive
    call that did not return within the recursion depth allowed by
    [wordIsMadeOfOtherWords_depth]. *)
Fixpoint shrinkLoop (kDoDebug : bool) (stringSet : gset word)
    (self : word → option (bool * list event))
    (w : word) (sublen remlen : nat) : option (bool * list event) :=
  match sublen with
  | 0 => Some (false, debug kDoDebug (NotMade w))
  | S sublen' =>
      let partWord := substr w 0 sublen in
      let out := debug kDoDebug (Testing partWord) in
      if contains stringSet partWord then
        let out := out ++ debug kDoDebug (MatchPartial partWord sublen) in
        let remainingString := substr w sublen remlen in
        if contains stringSet remainingString then
          Some (true, out ++ debug kDoDebug (MatchRemaining remainingString))
        else
          match self remainingString with
          | None => None
          | Some (true, lines) =>
              Some (true, out ++ debug kDoDebug (Calling remainingString lines))
          | Some (false, lines) =>
              match shrinkLoop kDoDebug stringSet self w sublen' (S remlen) with
              | None => None
              | Some (b, rest) =>
                  Some (b, out ++ debug kDoDebug (Calling remainingString lines)
                             ++ rest)
              end
          end
      else
        match shrinkLoop kDoDebug stringSet self w sublen' (S remlen) with
        | None => None
        | Some (b, rest) => Some (b, out ++ rest)
        end
  end.

(** [wordIsMadeOfOtherWords] with at most [depth] nested calls. *)
Fixpoint wordIsMadeOfOtherWords_depth (depth : nat) (kDoDebug : bool)
    (stringSet : gset word) (w : word) : option (bool * list event) :=
  match depth with
  | 0 => None
  | S depth' =>
      shrinkLoop kDoDebug stringSet
        (wordIsMadeOfOtherWords_depth depth' kDoDebug stringSet)
        w (length w - 1) 1
  end.

(** [wordIsMadeOfOtherWords(word, stringSet)]: the result and the lines
    printed.  A word of length [L] needs at most [L] nested calls (lemma
    [wordIsMadeOfOtherWords_depth_eq]), so the default is never used. *)
Definition wordIsMadeOfOtherWords (kDoDebug : bool) (stringSet : gset word)
    (w : word) : bool * list event :=
  default (false, [])
    (wordIsMadeOfOtherWords_depth (S (length w)) kDoDebug stringSet w).

(** ** cleanWord *)

(** [s.replace(pos, len, str)]; the program never has [pos > s.size()]. *)
Definition replace (s : word) (pos len : nat) (by_ : word) : word :=
  take pos s ++ by_ ++ drop (pos + len) s.

(** [strncmp(&c, "\n", 1) == 0 || strncmp(&c, "\r", 1) == 0] *)
Definition isEndOfLine (c : ascii) : bool :=
  bool_decide (c = "010"%char) || bool_decide (c = "013"%char).

(** [strncmp(&c, " ", 1) == 0] *)
Definition isSpace (c : ascii) : bool := bool_decide (c = " "%char).

(** The loop of [trimEndOfLine] on the reversed string: [s.back()] is the
    head, [s.pop_back()] the tail. *)
Fixpoint popEndOfLine (reversed : word) : word :=
  match reversed with
  | last :: rest => if isEndOfLine last then popEndOfLine rest else reversed
  | [] => []
  end.

Definition trimEndOfLine (s : word) : word :=
  reverse (popEndOfLine (reverse s)).

(** The loop of [trimLeadingWhitespace]: [rest] holds the characters from
    index [current] on; the result is the final value of [end]. *)
Fixpoint lastLeadingSpace (rest : word) (current : nat) (end_ : Z) : Z :=
  match rest with
  | c :: rest' =>
      if isSpace c then lastLeadingSpace rest' (S current) (Z.of_nat current)
      else end_
  | [] => end_
  end.

Definition trimLeadingWhitespace (s : word) : word :=
  if 0 <? length s then
    let end_ := lastLeadingSpace s 0 (-1) in
    if (0 <=? end_)%Z then replace s 0 (Z.to_nat end_ + 1) [] else s
  else s.

(** The loop of [trimTrailingWhitespace]: [before] holds the characters at
    the indices [current], [current - 1], ..., 0 in this order. *)
Fixpoint firstTrailingSpace (before : word) (current : Z) (end_ : Z) : Z :=
  match before with
  | c :: before' =>
      if isSpace c then firstTrailingSpace before' (current - 1) current
      else end_
  | [] => end_
  end.

Definition trimTrailingWhitespace (s : word) : word :=
  let slen := length s in
  if 0 <? slen then
    let end_ := firstTrailingSpace (reverse s) (Z.of_nat slen - 1) (-1) in
    if (0 <=? end_)%Z then replace s (Z.to_nat end_) (slen - 1) [] else s
  else s.

(** [std::tolower] in the "C" locale. *)
Definition tolower (c : ascii) : ascii :=
  let n := nat_of_ascii c in
  if (65 <=? n) && (n <=? 90) then ascii_of_nat (n + 32) else c.

Definition toLowerString (s : word) : word := map tolower s.

Definition cleanWord (s : word) : word :=
  toLowerString (trimTrailingWhitespace (trimLeadingWhitespace (trimEndOfLine s))).

(** ** hashStringFile *)

(** [stringSet->insert(line)]: the set afterwards and [insertResult.second],
    which tells whether the insertion took place. *)
Definition set_insert (stringSet : gset word) (line : word) : gset word * bool :=
  if contains stringSet line then (stringSet, false)
  else ({[line]} ∪ stringSet, true).

(** [sizeHash[lineLen].push_back(p)]; [operator[]] makes an empty vector
    for a length not seen before. *)
Definition push_back (sizeHash : gmap nat (list word)) (lineLen : nat)
    (p : word) : gmap nat (list word) :=
  <[lineLen := (sizeHash !!! lineLen) ++ [p]]> sizeHash.

(** What [hashStringFile] leaves behind: its return value, the two
    containers and the lines printed. *)
Record Hashed : Type := mkHashed {
  hashed_ok : bool;
  hashed_sizeHash : gmap nat (list word);
  hashed_stringSet : gset word;
  hashed_out : list event
}.

(** The [for(std::string line; std::getline(fileStream, line);)] loop, on
    the lines that [std::getline] yields. *)
Fixpoint hashLines (lines : list word) (sizeHash : gmap nat (list word))
    (stringSet : gset word) : Hashed :=
  match lines with
  | [] => mkHashed true sizeHash stringSet []
  | line :: lines' =>
      let line := cleanWord line in
      let lineLen := length line in
      if 0 <? lineLen then
        let insertResult := set_insert stringSet line in
        if insertResult.2 then
          hashLines lines' (push_back sizeHash lineLen line) insertResult.1
        else mkHashed false sizeHash insertResult.1 [NotInserted]
      else hashLines lines' sizeHash stringSet
  end.

(** [hashStringFile] on a file that could be opened and holds [lines]. *)
Definition hashStringFile (lines : list word) : Hashed := hashLines lines ∅ ∅.

(** ** extractAndSortKeysFromSizeHash *)

Definition NUL : ascii := "000"%char.

(** The sign of [strcmp(a.c_str(), b.c_str())]: the bytes are compared as
    unsigned values up to the first NUL. *)
Fixpoint strcmp (a b : word) : comparison :=
  match a, b with
  | [], [] => Eq
  | [], y :: _ => Nat.compare 0 (nat_of_ascii y)
  | x :: _, [] => Nat.compare (nat_of_ascii x) 0
  | x :: a', y :: b' =>
      match Nat.compare (nat_of_ascii x) (nat_of_ascii y) with
      | Eq => if bool_decide (x = NUL) then Eq else strcmp a' b'
      | c => c
      end
  end.

Definition sizeHashSortFunction (a b : word) : Prop := strcmp a b = Lt.

#[global] Instance sizeHashSortFunction_dec a b :
  Decision (sizeHashSortFunction a b).
Proof. unfold sizeHashSortFunction. apply _. Defined.

(** [std::sort] on a bucket.  A sort by insertion: a word goes before the
    first word of the sorted ones that is not before it, so that two words
    of which neither is before the other (the same bytes up to a NUL) stay
    in the order in which the bucket had them. *)
Fixpoint insertWord (w : word) (sorted : list word) : list word :=
  match sorted with
  | [] => [w]
  | q :: rest =>
      if decide (sizeHashSortFunction q w) then q :: insertWord w rest
      else w :: q :: rest
  end.

Fixpoint sortBucket (wordList : list word) : list word :=
  match wordList with
  | [] => []
  | w :: rest => insertWord w (sortBucket rest)
  end.

(** [std::sort] on the keys: numbers in increasing order, here by the merge
    sort of stdpp. *)
Definition sortKeys (keyVector : list nat) : list nat :=
  merge_sort le keyVector.

(** The keys in increasing order, and the map with its buckets sorted when
    [kDoPreSort] is set. *)
Definition extractAndSortKeysFromSizeHash (kDoPreSort : bool)
    (sizeHash : gmap nat (list word)) : list nat * gmap nat (list word) :=
  let keyVector := (map_to_list sizeHash).*1 in
  let sizeHash' := if kDoPreSort then sortBucket <$> sizeHash else sizeHash in
  (sortKeys keyVector, sizeHash').

(** ** findLongestWordsOfWords *)

Record Scan : Type := mkScan {
  firstWord : word;
  secondWord : word;
  firstFound : bool;
  secondFound : bool;
  countFound : nat;
  scan_out : list event
}.

(** The body of the inner loop, for one [word] of a bucket. *)
Definition tryWord (kDoDebug : bool) (stringSet : gset word) (st : Scan)
    (w : word) : Scan :=
  let out := scan_out st ++ debug kDoDebug (Trying w) in
  let r := wordIsMadeOfOtherWords kDoDebug stringSet w in
  let out := out ++ r.2 in
  if r.1 then
    let out := out ++ debug kDoDebug (IsMade w) in
    let count := S (countFound st) in
    if negb (secondFound st) then
      if negb (firstFound st) then
        mkScan w (secondWord st) true (secondFound st) count out
      else
        mkScan (firstWord st) w (firstFound st) true count out
    else
      mkScan (firstWord st) (secondWord st) (firstFound st) (secondFound st)
        count out
  else
    mkScan (firstWord st) (secondWord st) (firstFound st) (secondFound st)
      (countFound st) out.

(** The inner loop, [wordListIndex] from 0 up. *)
Definition tryBucket (kDoDebug : bool) (stringSet : gset word) (st : Scan)
    (wordList : list word) : Scan :=
  foldl (tryWord kDoDebug stringSet) st wordList.

(** The outer loop, [keyListIndex] from [keyList.size() - 1] down to 0. *)
Definition tryKeys (kDoDebug : bool) (stringSet : gset word)
    (sizeHash : gmap nat (list word)) (keyList : list nat) (st : Scan) : Scan :=
  foldl (λ st key, tryBucket kDoDebug stringSet st (sizeHash !!! key))
    st (reverse keyList).

Definition findLongestWordsOfWords (kDoDebug kDoPreSort : bool)
    (stringSet : gset word) (sizeHash : gmap nat (list word)) : Scan :=
  let st := mkScan [] [] false false 0 [] in
  let '(keyList, sizeHash) := extractAndSortKeysFromSizeHash kDoPreSort sizeHash in
  tryKeys kDoDebug stringSet sizeHash keyList st.

(** ** main *)

(** The lines printed by [main] once the arguments are parsed and the
    file is open. *)
Definition main (kDoDebug kDoPreSort : bool) (lines : list word) : list event :=
  let h := hashStringFile lines in
  if hashed_ok h then
    let st := findLongestWordsOfWords kDoDebug kDoPreSort
                (hashed_stringSet h) (hashed_sizeHash h) in
    hashed_out h ++ scan_out st
      ++ [Report (firstWord st) (secondWord st) (countFound st)]
  else hashed_out h.

(** ** Reference definitions *)

(** [w] is a concatenation of two or more words, each a member of the set
    and strictly shorter than [w]. *)
Definition composed (stringSet : gset word) (w : word) : Prop :=
  ∃ pieces : list word,
    2 ≤ length pieces
    ∧ Forall (λ p, p ∈ stringSet ∧ length p < length w) pieces
    ∧ concat pieces = w.

(** The search of [wordIsMadeOfOtherWords] with the prefix lengths tried in
    an arbitrary order: [candidates] lists the values of [sublen] to try. *)
Fixpoint searchIn (stringSet : gset word) (self : word → option bool)
    (w : word) (candidates : list nat) : option bool :=
  match candidates with
  | [] => Some false
  | sublen :: candidates' =>
      if contains stringSet (take sublen w) then
        if contains stringSet (drop sublen w) then Some true
        else
          match self (drop sublen w) with
          | None => None
          | Some true => Some true
          | Some false => searchIn stringSet self w candidates'
          end
      else searchIn stringSet self w candidates'
  end.

Fixpoint searchWith_depth (depth : nat) (order : nat → list nat)
    (stringSet : gset word) (w : word) : option bool :=
  match depth with
  | 0 => None
  | S depth' =>
      searchIn stringSet (searchWith_depth depth' order stringSet) w
        (order (length w))
  end.

Definition searchWith (order : nat → list nat) (stringSet : gset word)
    (w : word) : option bool :=
  searchWith_depth (S (length w)) order stringSet w.

(** An order of search tries, for a word of length [L], exactly the prefix
    lengths from 1 to [L - 1], in any order and any number of times. *)
Definition split_order (order : nat → list nat) : Prop :=
  ∀ L k, k ∈ order L ↔ 1 ≤ k < L.

(** The order of the program, from [L - 1] down to 1, and the opposite one. *)
Definition shrink_order (L : nat) : list nat := reverse (seq 1 (L - 1)).
Definition grow_order (L : nat) : list nat := seq 1 (L - 1).

(** ** Predicates used in the statements *)

(** What a call on a word shorter than [n] is assumed to do, when the
    loop is studied on its own. *)
Definition decides (stringSet : gset word)
    (self : word → option (bool * list event)) (n : nat) : Prop :=
  ∀ r, length r < n →
    ∃ b lines, self r = Some (b, lines) ∧ (b = true ↔ composed stringSet r).

Definition split_upto (stringSet : gset word) (w : word) (sublen : nat) : Prop :=
  ∃ k, (1 ≤ k ≤ sublen) ∧ take k w ∈ stringSet
       ∧ (drop k w ∈ stringSet ∨ composed stringSet (drop k w)).

(** The same for a search in any order. *)
Definition decides_plain (stringSet : gset word) (self : word → option bool)
    (n : nat) : Prop :=
  ∀ r, length r < n → ∃ b, self r = Some b ∧ (b = true ↔ composed stringSet r).

(** The partial words tested by a call, nested calls left out. *)
Definition tested (lines : list event) : list word :=
  omap (λ e, match e with Testing p => Some p | _ => None end) lines.

(** The lines of a call on [w]: every string looked up is a prefix or a
    suffix of [w] cut at a position [k] from 1 to [sublen], where the loop
    starts; every nested call is on such a suffix, and its lines are those of
    a call on that suffix; the partial words tested have the lengths
    [length w - 1], [length w - 2], ... without a gap. *)
Inductive event_ok : word → nat → event → Prop :=
  | ok_Testing w sublen k :
      1 ≤ k ≤ sublen → event_ok w sublen (Testing (take k w))
  | ok_MatchPartial w sublen k :
      1 ≤ k ≤ sublen → event_ok w sublen (MatchPartial (take k w) k)
  | ok_MatchRemaining w sublen k :
      1 ≤ k ≤ sublen → event_ok w sublen (MatchRemaining (drop k w))
  | ok_Calling w sublen k lines :
      1 ≤ k ≤ sublen → call_ok (drop k w) lines →
      event_ok w sublen (Calling (drop k w) lines)
  | ok_NotMade w sublen : event_ok w sublen (NotMade w)
with call_ok : word → list event → Prop :=
  | call_ok_intro w lines :
      map length (tested lines) `prefix_of` reverse (seq 1 (length w - 1)) →
      (∀ e, e ∈ lines → event_ok w (length w - 1) e) →
      call_ok w lines.

(** The calls made in the course of a call on [w] that printed [lines]: the
    call itself and, for each nested call, the calls made in its course. *)
Inductive call_in : word → list event → word → list event → Prop :=
  | call_in_here w lines : call_in w lines w lines
  | call_in_nested w lines r sub r' sub' :
      Calling r sub ∈ lines → call_in r sub r' sub' →
      call_in w lines r' sub'.

(** The strings a call looks up in the set, nested calls left out: each
    partial word and each remaining string (a remaining string shows in the
    lines as a match or as the argument of a nested call). *)
Definition looked_up (lines : list event) : list word :=
  omap (λ e, match e with
             | Testing s | MatchRemaining s | Calling s _ => Some s
             | _ => None
             end) lines.

(** The words that reach the store: the cleaned lines that are not empty. *)
Definition cleaned (lines : list word) : list word :=
  filter (λ line, line ≠ []) (cleanWord <$> lines).

(** The invariant of the store: the buckets hold members of the set, each
    in the bucket of its length and once; every member is in a bucket; no
    bucket is empty. *)
Record store_inv (sizeHash : gmap nat (list word)) (stringSet : gset word) : Prop :=
  mkStoreInv {
    inv_member : ∀ len w, w ∈ sizeHash !!! len → w ∈ stringSet;
    inv_length : ∀ len w, w ∈ sizeHash !!! len → length w = len;
    inv_indexed : ∀ w, w ∈ stringSet → w ∈ sizeHash !!! length w;
    inv_once : ∀ len, NoDup (sizeHash !!! len);
    inv_nonempty : ∀ len, sizeHash !! len ≠ Some []
  }.

(** The line that [main] prints after a scan. *)
Definition report_of (st : Scan) : event :=
  Report (firstWord st) (secondWord st) (countFound st).

(** The result of [wordIsMadeOfOtherWords] alone. *)
Definition made (stringSet : gset word) (w : word) : bool :=
  (wordIsMadeOfOtherWords false stringSet w).1.

(** The words that the scan tried, in order, as its lines tell. *)
Definition tried (lines : list event) : list word :=
  omap (λ e, match e with Trying w => Some w | _ => None end) lines.

(** A bucket as the scan finds it. *)
Definition bucketOrder (kDoPreSort : bool) (wordList : list word) : list word :=
  if kDoPreSort then sortBucket wordList else wordList.

(** What a scan has found, and what it has found once the words [hits], in
    this order, were found to be made of other words. *)
Definition outcome (st : Scan) : word * word * bool * bool * nat :=
  (firstWord st, secondWord st, firstFound st, secondFound st, countFound st).

Definition outcome_of (hits : list word) : word * word * bool * bool * nat :=
  (default [] (hits !! 0), default [] (hits !! 1),
   match hits with [] => false | _ => true end,
   match hits with _ :: _ :: _ => true | _ => false end,
   length hits).

(** All the words of the buckets. *)
Definition all_words (sizeHash : gmap nat (list word)) : list word :=
  (map_to_list sizeHash).*2 ≫= id.

(** The words in the order of the scan: the keys from the largest down, and
    each bucket as the scan finds it. *)
Definition traversal (kDoPreSort : bool) (sizeHash : gmap nat (list word)) : list word :=
  reverse (extractAndSortKeysFromSizeHash kDoPreSort sizeHash).1
    ≫= λ key, bucketOrder kDoPreSort (sizeHash !!! key).

(** ** Word lists used as examples *)

Definition exceptLines : list word :=
  map str ["ally"; "ex"; "except"; "exception"; "exceptionally"]%string.

Definition abLines : list word := map str ["a"; "b"; "ab"; "abab"; "baab"]%string.

Definition baLines : list word := map str ["b"; "a"; "baab"; "ab"; "abab"]%string.

Definition catdogLines : list word := map str ["cat"; "dog"]%string.

Definition catLines : list word := map str ["cat"; "dog"; "Cat "]%string.

(** Words with a NUL byte: the last two are equal for [strcmp]. *)
Definition aNULc : word := str "a" ++ NUL :: str "c".
Definition aNULb : word := str "a" ++ NUL :: str "b".
Definition tiedLines : list word :=
  [str "a"; NUL :: str "c"; NUL :: str "b"; aNULc; aNULb].

Definition abStore : gset word :=
  list_to_set (map str ["a"; "b"; "ab"; "abab"]%string).

(** [n] space characters. *)
Definition spaces (n : nat) : word := replicate n " "%char.

(** The upper-case letters of ASCII. *)
Definition isUpper (c : ascii) : bool :=
  (65 <=? nat_of_ascii c) && (nat_of_ascii c <=? 90).

(** A word that neither starts nor ends with a space. *)
Definition no_outer_space (s : word) : Prop :=
  head s ≠ Some " "%char ∧ last s ≠ Some " "%char.

(** The last character, if any, is neither ["\n"] nor ["\r"]. *)
Definition no_final_eol (s : word) : Prop :=
  ∀ c, last s = Some c → isEndOfLine c = false.

(** [s.c_str()] as [strcmp] reads it: the characters before the first NUL. *)
Fixpoint c_str (s : word) : word :=
  match s with
  | [] => []
  | c :: s' => if bool_decide (c = NUL) then [] else c :: c_str s'
  end.

(** The character codes that [strcmp] compares. *)
Definition strkey (s : word) : list nat := nat_of_ascii <$> c_str s.

(** [a] does not come after [b] for [sizeHashSortFunction]. *)
Definition notAfter (a b : word) : Prop := ¬ sizeHashSortFunction b a.

(** The state of the scan before the first word. *)
Definition scan_start : Scan := mkScan [] [] false false 0 [].

(** [b] is not longer than [a]. *)
Definition notLonger (a b : word) : Prop := length b ≤ length a.

(** The loop of [hashStringFile] on the words that reach the store. *)
Fixpoint hashWords (words : list word) (sizeHash : gmap nat (list word))
    (stringSet : gset word) : Hashed :=
  match words with
  | [] => mkHashed true sizeHash stringSet []
  | w :: words' =>
      let insertResult := set_insert stringSet w in
      if insertResult.2 then
        hashWords words' (push_back sizeHash (length w) w) insertResult.1
      else mkHashed false sizeHash insertResult.1 [NotInserted]
  end.

Definition decoratedLine : word := str "  Cat  " ++ ["013"%char].

Definition eolInside : word := str "cat" ++ ["010"%char; " "%char].

Definition sortedLines : list word := map str ["a"; "ab"; "abab"; "b"; "baab"]%string.

Definition filesOf (lines : list word) (fileName : word) : option (list word) :=
  if decide (fileName = str "words.txt") then Some lines else None.

(** ** parseArguments and printUsage *)

(** What the parsing of the arguments prints. *)
Inductive usage_line : Type :=
  | InvalidOption (c : ascii)
      (* "ERROR:  %c is not a valid option." *)
  | TooManyFiles
      (* "ERROR:  Please pass the script a maximum of one input text file
         name." *)
  | UsageText (program : word).
      (* the six lines of [printUsage], the first with [argv[0]] *)

(** [parseArguments] either ends the process with [exit(1)], after the
    lines [out], or returns with the two flags and the file name set. *)
Inductive parsed : Type :=
  | Exit (out : list usage_line)
  | Parsed (kDoDebug kDoPreSort : bool) (fileName : word).

(** [printUsage(true, argv)]: every call passes [doExit = true], so the
    process ends after the text.  [argv[0]] is the name of the program; for
    an [argv] without it the model prints an empty name. *)
Definition printUsage (argv : list word) : list usage_line :=
  [UsageText (argv !!! 0)].

(** The loop over the characters of an option word, from index 1 on. *)
Fixpoint parseOptions (argv : list word) (options : list ascii)
    (kDoDebug kDoPreSort : bool) : list usage_line + bool * bool :=
  match options with
  | [] => inr (kDoDebug, kDoPreSort)
  | c :: options' =>
      if bool_decide (c = "h"%char) then inl (printUsage argv)
      else if bool_decide (c = "d"%char) then
        parseOptions argv options' true kDoPreSort
      else if bool_decide (c = "s"%char) then
        parseOptions argv options' kDoDebug true
      else inl (InvalidOption c :: printUsage argv)
  end.

(** [strncmp(&argstr[0], "-", 1) == 0]; for an empty [argstr] the character
    read is the NUL that ends it. *)
Definition isOption (argstr : word) : bool :=
  bool_decide (head argstr = Some "-"%char).

(** The loop over [argv[1]], ..., [argv[argc - 1]]. *)
Fixpoint parseWords (argv : list word) (words : list word)
    (kDoDebug kDoPreSort : bool) (fileName : word) : parsed :=
  match words with
  | [] => Parsed kDoDebug kDoPreSort fileName
  | argstr :: words' =>
      if isOption argstr then
        if length argstr =? 1 then Exit (printUsage argv)
        else
          match parseOptions argv (drop 1 argstr) kDoDebug kDoPreSort with
          | inl out => Exit out
          | inr flags => parseWords argv words' flags.1 flags.2 fileName
          end
      else
        if 0 <? length fileName then Exit (TooManyFiles :: printUsage argv)
        else parseWords argv words' kDoDebug kDoPreSort argstr
  end.

(** [parseArguments(argc, argv, fileName)], with the values of the two
    global flags and of [fileName] at the call. *)
Definition parseArguments (argv : list word) (kDoDebug kDoPreSort : bool)
    (fileName : word) : parsed :=
  if length argv <? 2 then Exit (printUsage argv)
  else
    match parseWords argv (drop 1 argv) kDoDebug kDoPreSort fileName with
    | Exit out => Exit out
    | Parsed d s f =>
        if length f =? 0 then Exit (printUsage argv) else Parsed d s f
    end.

(** ** The whole run *)

(** What a run prints. *)
Inductive console : Type :=
  | Usage (u : usage_line)
  | OpenError (fileName : word)
      (* "ERROR:  Couldn't open file %s for input." *)
  | Line (e : event).

(** A run of the program: [files] gives the lines of each file that can be
    opened; the result is what is printed and the exit status ([exit(1)]
    after a usage error or a file that cannot be opened, 0 at the end of
    [main]). *)
Definition run (files : word → option (list word)) (argv : list word) :
    list console * nat :=
  match parseArguments argv false false [] with
  | Exit out => (Usage <$> out, 1)
  | Parsed kDoDebug kDoPreSort fileName =>
      match files fileName with
      | None => ([OpenError fileName], 1)
      | Some lines => (Line <$> main kDoDebug kDoPreSort lines, 0)
      end
  end.

(** An option word that [parseArguments] accepts: a dash and one or more
    of the letters d and s. *)
Definition validOption (argstr : word) : Prop :=
  2 ≤ length argstr
  ∧ Forall (λ c, c = "d"%char ∨ c = "s"%char) (drop 1 argstr).

(** Some option word among [words] has the letter [c]. *)
Definition hasFlag (c : ascii) (words : list word) : bool :=
  bool_decide (Exists (λ argstr, isOption argstr = true ∧ c ∈ drop 1 argstr) words).

(** The words that are no option words. *)
Definition fileNames (words : list word) : list word :=
  filter (λ argstr, isOption argstr = false) words.

(** The option words. *)
Definition optionWords (words : list word) : list word :=
  filter (λ argstr, isOption argstr = true) words.

Definition argvBoth : list word := map str ["findLongest"; "-ds"; "words.txt"]%string.

Definition argvBad : list word := map str ["findLongest"; "-dx"; "words.txt"]%string.

Definition argvSwapped : list word := map str ["./a.out"; "words.txt"; "-ds"]%string.

(** * Properties *)

(** ** The reference definition *)

Section Composed.
Context (stringSet : gset word).

Lemma concat_filter_nonempty (pieces : list word) :
  concat (filter (λ p, p ≠ []) pieces) = concat pieces.
Proof.
  induction pieces as [|p pieces IH]; [done|].
  destruct (decide (p = [])) as [->|Hp].
  - rewrite filter_cons_False by naive_solver. done.
  - rewrite filter_cons_True by done. simpl. by rewrite IH.
Qed.

Lemma piece_le_concat (pieces : list word) (p : word) :
  p ∈ pieces → length p ≤ length (concat pieces).
Proof.
  induction 1 as [p l|p q l _ IH]; simpl; rewrite length_app; lia.
Qed.

Lemma piece_lt_concat (pieces : list word) (p : word) :
  Forall (λ q, q ≠ []) pieces → 2 ≤ length pieces → p ∈ pieces →
  length p < length (concat pieces).
Proof.
  intros Hne Hlen Hin.
  destruct pieces as [|a [|b rest]]; simpl in Hlen; try lia.
  inversion Hne as [|? ? Ha Hne']; subst.
  inversion Hne' as [|? ? Hb _]; subst.
  assert (0 < length a) by (destruct a; [done | simpl; lia]).
  assert (0 < length b) by (destruct b; [done | simpl; lia]).
  apply elem_of_cons in Hin as [->|Hin].
  - simpl. rewrite !length_app. lia.
  - apply piece_le_concat in Hin. simpl in *. rewrite !length_app in *. lia.
Qed.

(** Empty pieces can be left out. *)
Lemma composed_nonempty (w : word) :
  composed stringSet w →
  ∃ p1 p2 rest,
    Forall (λ p, p ∈ stringSet ∧ p ≠ []) (p1 :: p2 :: rest)
    ∧ w = p1 ++ p2 ++ concat rest.
Proof.
  intros (pieces & Hlen & Hall & Hcat).
  pose proof (concat_filter_nonempty pieces) as Hf.
  assert (Forall (λ p, (p ∈ stringSet ∧ length p < length w) ∧ p ≠ [])
            (filter (λ p, p ≠ []) pieces)) as Hall'.
  { apply Forall_forall. intros p [Hne Hin]%list_elem_of_filter.
    split; [|done]. by eapply Forall_forall in Hall. }
  destruct (filter (λ p, p ≠ []) pieces) as [|p1 [|p2 rest]].
  - simpl in Hf. rewrite Hcat in Hf.
    destruct pieces as [|p ?]; simpl in Hlen; [lia|].
    inversion Hall as [|? ? [_ Hp] _]. rewrite <- Hf in Hp. simpl in Hp. lia.
  - simpl in Hf. rewrite app_nil_r, Hcat in Hf.
    inversion Hall' as [|? ? [[_ Hp] _] _]. rewrite Hf in Hp. lia.
  - exists p1, p2, rest. split.
    + eapply Forall_impl; [exact Hall'|]. naive_solver.
    + rewrite <- Hcat, <- Hf. simpl. done.
Qed.

(** One step of the reference definition: a first piece and the rest. *)
Lemma composed_unfold (w : word) :
  composed stringSet w ↔
  ∃ k, 1 ≤ k < length w ∧ take k w ∈ stringSet
       ∧ (drop k w ∈ stringSet ∨ composed stringSet (drop k w)).
Proof.
  split.
  - intros (p1 & p2 & rest & Hall & ->)%composed_nonempty.
    inversion Hall as [|? ? [Hp1 Hn1] Hall']; subst.
    inversion Hall' as [|? ? [Hp2 Hn2] Hall'']; subst.
    assert (0 < length p1) by (destruct p1; [done | simpl; lia]).
    assert (0 < length p2) by (destruct p2; [done | simpl; lia]).
    exists (length p1). rewrite !length_app.
    rewrite take_app_length, drop_app_length.
    split; [lia|]. split; [done|].
    destruct rest as [|p3 rest].
    + left. simpl. by rewrite app_nil_r.
    + right. exists (p2 :: p3 :: rest). split; [simpl; lia|]. split; [|done].
      apply Forall_forall. intros p Hp. split.
      * eapply Forall_forall in Hall'; [|exact Hp]. by destruct Hall'.
      * change (p2 ++ concat (p3 :: rest)) with (concat (p2 :: p3 :: rest)).
        apply piece_lt_concat; [|simpl; lia|done].
        eapply Forall_impl; [exact Hall'|]. naive_solver.
  - intros (k & Hk & Htake & Hdrop).
    assert (length (take k w) < length w) by (rewrite length_take; lia).
    assert (length (drop k w) < length w) by (rewrite length_drop; lia).
    destruct Hdrop as [Hdrop | (pieces & Hlen & Hall & Hcat)].
    + exists [take k w; drop k w]. split; [simpl; lia|]. split.
      * by repeat constructor.
      * simpl. by rewrite app_nil_r, take_drop.
    + exists (take k w :: pieces). split; [simpl; lia|]. split.
      * constructor; [done|]. eapply Forall_impl; [exact Hall|].
        intros p [? ?]. split; [done | lia].
      * simpl. by rewrite Hcat, take_drop.
Qed.
End Composed.

(** ** The search *)

Section Search.
Context (stringSet : gset word).

Lemma contains_true (s : word) : contains stringSet s = true ↔ s ∈ stringSet.
Proof. unfold contains. apply bool_decide_eq_true. Qed.

Lemma contains_false (s : word) : contains stringSet s = false ↔ s ∉ stringSet.
Proof. unfold contains. apply bool_decide_eq_false. Qed.

Lemma substr_prefix (w : word) (n : nat) : substr w 0 n = take n w.
Proof. done. Qed.

Lemma substr_suffix (w : word) (sublen remlen : nat) :
  sublen + remlen = length w → substr w sublen remlen = drop sublen w.
Proof.
  intros Hlen. unfold substr. apply take_ge. rewrite length_drop. lia.
Qed.

Lemma split_upto_0 (w : word) : ¬ split_upto stringSet w 0.
Proof. intros (k & ? & _). lia. Qed.

Lemma split_upto_S (w : word) (sublen : nat) :
  split_upto stringSet w (S sublen) ↔
  (take (S sublen) w ∈ stringSet
   ∧ (drop (S sublen) w ∈ stringSet ∨ composed stringSet (drop (S sublen) w)))
  ∨ split_upto stringSet w sublen.
Proof.
  split.
  - intros (k & Hk & Hrest).
    destruct (decide (k = S sublen)) as [->|]; [by left|].
    right. exists k. split; [lia | done].
  - intros [Hrest | (k & Hk & Hrest)].
    + exists (S sublen). split; [lia | done].
    + exists k. split; [lia | done].
Qed.

Lemma shrinkLoop_result (kDoDebug : bool) self (w : word) (sublen remlen : nat) :
  decides stringSet self (length w) →
  (sublen ≠ 0 → sublen + remlen = length w) →
  ∃ b out, shrinkLoop kDoDebug stringSet self w sublen remlen = Some (b, out)
           ∧ (b = true ↔ split_upto stringSet w sublen).
Proof.
  intros Hself. revert remlen.
  induction sublen as [|sublen IH]; intros remlen Hlen.
  - eexists _, _. split; [reflexivity|].
    split; [done | by intros ?%split_upto_0].
  - specialize (Hlen ltac:(done)).
    destruct (IH (S remlen) ltac:(lia)) as (b' & out' & Hloop & Hb').
    simpl. rewrite substr_prefix, substr_suffix by done.
    rewrite Hloop.
    destruct (contains stringSet (take (S sublen) w)) eqn:Hpart.
    2:{ eexists _, _. split; [reflexivity|]. rewrite Hb', split_upto_S.
        apply contains_false in Hpart. naive_solver. }
    apply contains_true in Hpart.
    destruct (contains stringSet (drop (S sublen) w)) eqn:Hrem.
    { apply contains_true in Hrem. eexists _, _. split; [reflexivity|].
      rewrite split_upto_S. naive_solver. }
    apply contains_false in Hrem.
    destruct (Hself (drop (S sublen) w)) as (b & lines & -> & Hb).
    { rewrite length_drop. lia. }
    destruct b.
    + eexists _, _. split; [reflexivity|].
      rewrite split_upto_S. naive_solver.
    + eexists _, _. split; [reflexivity|].
      rewrite Hb', split_upto_S. naive_solver.
Qed.

Lemma split_upto_composed (w : word) :
  split_upto stringSet w (length w - 1) ↔ composed stringSet w.
Proof.
  rewrite composed_unfold. unfold split_upto.
  split; intros (k & Hk & Hrest); exists k; (split; [lia | done]).
Qed.

(** A word shorter than the allowed depth is decided. *)
Lemma depth_decides (kDoDebug : bool) (depth : nat) :
  decides stringSet (wordIsMadeOfOtherWords_depth depth kDoDebug stringSet) depth.
Proof.
  induction depth as [|depth IH]; intros w Hw; [lia|].
  simpl. setoid_rewrite <- split_upto_composed.
  apply shrinkLoop_result; [|lia].
  intros r Hr. apply IH. lia.
Qed.

Lemma wordIsMadeOfOtherWords_depth_eq (kDoDebug : bool) (w : word) :
  wordIsMadeOfOtherWords_depth (S (length w)) kDoDebug stringSet w
  = Some (wordIsMadeOfOtherWords kDoDebug stringSet w).
Proof.
  unfold wordIsMadeOfOtherWords.
  destruct (depth_decides kDoDebug (S (length w)) w) as (b & out & -> & _);
    [lia | done].
Qed.

Lemma wordIsMadeOfOtherWords_composed (kDoDebug : bool) (w : word) :
  (wordIsMadeOfOtherWords kDoDebug stringSet w).1 = true
  ↔ composed stringSet w.
Proof.
  unfold wordIsMadeOfOtherWords.
  destruct (depth_decides kDoDebug (S (length w)) w) as (b & out & -> & Hb);
    [lia | done].
Qed.

Lemma searchIn_result self (w : word) (candidates : list nat) :
  decides_plain stringSet self (length w) →
  Forall (λ k, 1 ≤ k < length w) candidates →
  ∃ b, searchIn stringSet self w candidates = Some b
       ∧ (b = true ↔
          ∃ k, k ∈ candidates ∧ take k w ∈ stringSet
               ∧ (drop k w ∈ stringSet ∨ composed stringSet (drop k w))).
Proof.
  intros Hself. induction 1 as [|k candidates Hk _ IH].
  - exists false. split; [done|]. split; [done|].
    intros (k & Hin & _). by apply elem_of_nil in Hin.
  - destruct IH as (b' & Hloop & Hb'). simpl. rewrite Hloop.
    setoid_rewrite elem_of_cons.
    destruct (contains stringSet (take k w)) eqn:Hpart.
    2:{ exists b'. split; [done|]. rewrite Hb'.
        apply contains_false in Hpart. naive_solver. }
    apply contains_true in Hpart.
    destruct (contains stringSet (drop k w)) eqn:Hrem.
    { apply contains_true in Hrem. exists true. naive_solver. }
    apply contains_false in Hrem.
    destruct (Hself (drop k w)) as (b & -> & Hb).
    { rewrite length_drop. lia. }
    destruct b.
    + exists true. naive_solver.
    + exists b'. split; [done|]. rewrite Hb'. naive_solver.
Qed.

Lemma searchWith_depth_decides (order : nat → list nat) (depth : nat) :
  split_order order →
  decides_plain stringSet (searchWith_depth depth order stringSet) depth.
Proof.
  intros Horder.
  induction depth as [|depth IH]; intros w Hw; [lia|].
  simpl.
  destruct (searchIn_result (searchWith_depth depth order stringSet) w
              (order (length w))) as (b & Hb & Hiff).
  - intros r Hr. apply IH. lia.
  - apply Forall_forall. intros k Hk. by apply Horder.
  - exists b. split; [done|]. rewrite Hiff, composed_unfold.
    split; intros (k & Hk & Hrest); exists k; (split; [by apply Horder | done]).
Qed.

Lemma shrink_order_split : split_order shrink_order.
Proof.
  intros L k. unfold shrink_order. rewrite elem_of_reverse, elem_of_seq. lia.
Qed.

Lemma grow_order_split : split_order grow_order.
Proof. intros L k. unfold grow_order. rewrite elem_of_seq. lia. Qed.
End Search.

(** C1. [wordIsMadeOfOtherWords] returns true exactly for the words that are
    a concatenation of two or more members of the set, each strictly shorter
    than the word; and a search that tries the prefix lengths in any other
    order returns the same boolean. *)
Theorem wordIsMadeOfOtherWords_iff_composed (kDoDebug : bool)
    (stringSet : gset word) (w : word) :
  ((wordIsMadeOfOtherWords kDoDebug stringSet w).1 = true
   ↔ composed stringSet w)
  ∧ (∀ order, split_order order →
       searchWith order stringSet w
       = Some (wordIsMadeOfOtherWords kDoDebug stringSet w).1).
Proof.
  pose proof (wordIsMadeOfOtherWords_composed stringSet kDoDebug w) as Hw.
  split; [done|]. intros order Horder. unfold searchWith.
  destruct (searchWith_depth_decides stringSet order (S (length w)) Horder w)
    as (b & -> & Hb); [lia|].
  f_equal. rewrite <- Hw in Hb.
  destruct b, (wordIsMadeOfOtherWords kDoDebug stringSet w).1; naive_solver.
Qed.

Lemma wordIsMadeOfOtherWords_iff_composed_witness :
  searchWith grow_order abStore (str "abab")
  = Some (wordIsMadeOfOtherWords false abStore (str "abab")).1.
Proof.
  apply (proj2 (wordIsMadeOfOtherWords_iff_composed false abStore (str "abab"))).
  intros L k. unfold grow_order. rewrite elem_of_seq. lia.
Defined.

(** ** The lines of one call *)

Ltac elem_cases He :=
  simpl in He;
  repeat match type of He with
    | _ ∈ _ :: _ => apply elem_of_cons in He as [-> | He]
    | _ ∈ [] => by apply elem_of_nil in He
    end.

Section Lines.
Context (stringSet : gset word).

Lemma event_ok_mono (w : word) (sublen sublen' : nat) (e : event) :
  sublen ≤ sublen' → event_ok w sublen e → event_ok w sublen' e.
Proof. intros Hle He. destruct He; constructor; (lia || done). Qed.

Lemma tested_app (l1 l2 : list event) : tested (l1 ++ l2) = tested l1 ++ tested l2.
Proof. unfold tested. apply omap_app. Qed.

(** The lines of the loop started at [sublen]. *)
Lemma shrinkLoop_lines self (w : word) (sublen remlen : nat) b (lines : list event) :
  (∀ r b' sub, self r = Some (b', sub) → call_ok r sub) →
  (sublen ≠ 0 → sublen + remlen = length w) →
  shrinkLoop true stringSet self w sublen remlen = Some (b, lines) →
  map length (tested lines) `prefix_of` reverse (seq 1 sublen)
  ∧ ∀ e, e ∈ lines → event_ok w sublen e.
Proof.
  intros Hself. revert remlen b lines.
  induction sublen as [|sublen IH]; intros remlen b lines Hlen Hloop.
  - simpl in Hloop. injection Hloop as <- <-. split.
    + simpl. apply prefix_nil.
    + intros e ->%list_elem_of_singleton. constructor.
  - specialize (Hlen ltac:(done)).
    assert (length (take (S sublen) w) = S sublen) as Hpart
      by (rewrite length_take; lia).
    assert (reverse (seq 1 (S sublen)) = S sublen :: reverse (seq 1 sublen))
      as Hseq by (by rewrite seq_S, reverse_snoc).
    simpl in Hloop. rewrite substr_prefix, substr_suffix in Hloop by done.
    rewrite Hseq.
    destruct (contains stringSet (take (S sublen) w)).
    2:{ destruct (shrinkLoop true stringSet self w sublen (S remlen))
          as [[b' rest]|] eqn:Hrest; [|done].
        injection Hloop as <- <-.
        apply IH in Hrest as [Hpre Hev]; [|lia].
        split.
        - simpl. rewrite Hpart. by apply prefix_cons.
        - intros e [-> | He]%elem_of_cons.
          + constructor. lia.
          + eapply event_ok_mono; [|by apply Hev]. lia. }
    destruct (contains stringSet (drop (S sublen) w)).
    { injection Hloop as <- <-. split.
      - simpl. rewrite Hpart. apply prefix_cons, prefix_nil.
      - intros e He. elem_cases He; constructor; lia. }
    destruct (self (drop (S sublen) w)) as [[[] sub]|] eqn:Hcall; [| |done].
    + injection Hloop as <- <-. apply Hself in Hcall. split.
      * simpl. rewrite Hpart. apply prefix_cons, prefix_nil.
      * intros e He. elem_cases He; constructor; (lia || done).
    + destruct (shrinkLoop true stringSet self w sublen (S remlen))
        as [[b' rest]|] eqn:Hrest; [|done].
      injection Hloop as <- <-. apply Hself in Hcall.
      apply IH in Hrest as [Hpre Hev]; [|lia].
      split.
      * simpl. rewrite Hpart. by apply prefix_cons.
      * intros e He.
        do 3 (apply elem_of_cons in He as [-> | He];
              [constructor; (lia || done)|]).
        eapply event_ok_mono; [|by apply Hev]. lia.
Qed.

Lemma depth_lines (depth : nat) (w : word) b (lines : list event) :
  wordIsMadeOfOtherWords_depth depth true stringSet w = Some (b, lines) →
  call_ok w lines.
Proof.
  revert w b lines. induction depth as [|depth IH]; intros w b lines Hcall;
    [done|].
  simpl in Hcall. apply shrinkLoop_lines in Hcall as [Hpre Hev].
  - by constructor.
  - intros r b' sub. apply IH.
  - lia.
Qed.

Lemma wordIsMadeOfOtherWords_lines (w : word) :
  call_ok w (wordIsMadeOfOtherWords true stringSet w).2.
Proof.
  pose proof (wordIsMadeOfOtherWords_depth_eq stringSet true w) as Heq.
  destruct (wordIsMadeOfOtherWords true stringSet w) as [b lines].
  by eapply depth_lines.
Qed.
End Lines.

Section Termination.
Context (stringSet : gset word).

Lemma call_in_ok (w : word) lines (r : word) sub :
  call_in w lines r sub → call_ok w lines → call_ok r sub.
Proof.
  induction 1 as [|w lines r sub r' sub' Hin _ IH]; [done|].
  intros Hok. apply IH. destruct Hok as [w lines _ Hev].
  apply Hev in Hin. by inversion Hin.
Qed.

Lemma call_ok_attempts (w : word) lines :
  call_ok w lines → length (tested lines) ≤ length w - 1.
Proof.
  intros [? ? Hpre _]. apply prefix_length in Hpre.
  by rewrite length_map, length_reverse, length_seq in Hpre.
Qed.

Lemma call_ok_nested (w : word) lines (r : word) sub :
  call_ok w lines → Calling r sub ∈ lines →
  length r < length w ∧ r `suffix_of` w.
Proof.
  intros [? ? _ Hev] Hin. apply Hev in Hin.
  inversion Hin as [| | |? ? k ? Hk _|]; subst. split.
  - rewrite length_drop. lia.
  - apply suffix_drop.
Qed.

(** The loop only calls [self] on words shorter than [w]. *)
Lemma shrinkLoop_ext (kDoDebug : bool) self self' (w : word) (sublen remlen : nat) :
  (∀ r, length r < length w → self r = self' r) →
  (sublen ≠ 0 → sublen + remlen = length w) →
  shrinkLoop kDoDebug stringSet self w sublen remlen
  = shrinkLoop kDoDebug stringSet self' w sublen remlen.
Proof.
  intros Hself. revert remlen.
  induction sublen as [|sublen IH]; intros remlen Hlen; [done|].
  specialize (Hlen ltac:(done)). simpl.
  rewrite substr_prefix, substr_suffix by done.
  rewrite Hself by (rewrite length_drop; lia).
  by rewrite IH by lia.
Qed.

(** Any depth above the length of the word gives the same result. *)
Lemma depth_irrelevant (kDoDebug : bool) (depth depth' : nat) (w : word) :
  length w < depth → length w < depth' →
  wordIsMadeOfOtherWords_depth depth kDoDebug stringSet w
  = wordIsMadeOfOtherWords_depth depth' kDoDebug stringSet w.
Proof.
  revert depth' w. induction depth as [|depth IH]; intros depth' w H1 H2; [lia|].
  destruct depth' as [|depth']; [lia|]. simpl.
  apply shrinkLoop_ext; [|lia].
  intros r Hr. apply IH; lia.
Qed.
End Termination.

(** C5. A call of [wordIsMadeOfOtherWords] returns for every word and every
    set: a depth of recursion above the length of the word is enough, and
    any such depth gives the same result.  Every call made on the way, on a
    word of length L, tests at most L - 1 partial words, and calls itself
    only on suffixes strictly shorter than its own word. *)
Theorem engine_terminates (kDoDebug : bool) (stringSet : gset word)
    (w : word) (extra : nat) :
  wordIsMadeOfOtherWords_depth (S (length w) + extra) kDoDebug stringSet w
  = Some (wordIsMadeOfOtherWords kDoDebug stringSet w)
  ∧ ∀ r lines,
      call_in w (wordIsMadeOfOtherWords true stringSet w).2 r lines →
      length (tested lines) ≤ length r - 1
      ∧ ∀ r' lines', Calling r' lines' ∈ lines →
          length r' < length r ∧ r' `suffix_of` r.
Proof.
  split.
  - rewrite <- wordIsMadeOfOtherWords_depth_eq.
    apply depth_irrelevant; lia.
  - intros r lines Hin.
    apply call_in_ok in Hin; [|apply wordIsMadeOfOtherWords_lines].
    split; [by apply call_ok_attempts|].
    intros r' lines'. by apply call_ok_nested.
Qed.

Lemma engine_terminates_witness :
  length (tested (wordIsMadeOfOtherWords true abStore (str "abab")).2)
  ≤ length (str "abab") - 1.
Proof.
  exact (proj1 (proj2 (engine_terminates true abStore (str "abab") 0)
                  _ _ (call_in_here _ _))).
Defined.

(** ** No match of the word with itself *)

Lemma composed_subseteq (stringSet stringSet' : gset word) (w : word) :
  (∀ p, length p < length w → p ∈ stringSet → p ∈ stringSet') →
  composed stringSet w → composed stringSet' w.
Proof.
  intros Hsub (pieces & Hlen & Hall & Hcat). exists pieces.
  split; [done|]. split; [|done].
  eapply Forall_impl; [exact Hall|]. intros p [? ?]. split; [auto | done].
Qed.

Section NoSelfMatch.
Context (stringSet : gset word).

Lemma composed_add_self (w : word) :
  composed ({[w]} ∪ stringSet) w ↔ composed stringSet w.
Proof.
  split; apply composed_subseteq; intros p Hp Hin; [|set_solver].
  apply elem_of_union in Hin as [->%elem_of_singleton|]; [lia | done].
Qed.

Lemma not_composed_singleton (w : word) : ¬ composed {[w]} w.
Proof.
  intros (pieces & Hlen & Hall & _).
  destruct pieces as [|p pieces]; simpl in Hlen; [lia|].
  inversion Hall as [|? ? [->%elem_of_singleton Hp] _]. lia.
Qed.

Lemma call_ok_looked_up (w : word) lines :
  call_ok w lines →
  Forall (λ s, s ≠ [] ∧ s ≠ w ∧ length s < length w) (looked_up lines).
Proof.
  intros Hok. inversion Hok as [? ? _ Hev]; subst.
  apply Forall_forall. intros s Hs.
  apply list_elem_of_omap in Hs as (e & He & Hs). apply Hev in He.
  assert (∀ k, 1 ≤ k ≤ length w - 1 →
            0 < length (take k w) < length w
            ∧ 0 < length (drop k w) < length w) as Hcut.
  { intros k Hk. rewrite length_take, length_drop. lia. }
  assert (0 < length s < length w) as Hlen.
  { inversion He as [? ? k Hk|? ? k Hk|? ? k Hk|? ? k ? Hk _|];
      simplify_eq; by apply Hcut in Hk as [? ?]. }
  split; [|split; [|lia]]; intros ->; simpl in Hlen; lia.
Qed.
End NoSelfMatch.

(** C6. The search never matches the word with itself or with the empty
    word: the partial words tested by a call have the lengths L - 1 down to
    1 at most, every string that a call (nested or not) looks up in the set
    is non-empty and differs from the word of that call, and so the result
    is the same whether or not the word is itself in the set; a word alone
    in the set is not made of other words. *)
Theorem no_self_match (kDoDebug : bool) (stringSet : gset word) (w : word) :
  (wordIsMadeOfOtherWords kDoDebug ({[w]} ∪ stringSet) w).1
  = (wordIsMadeOfOtherWords kDoDebug stringSet w).1
  ∧ (wordIsMadeOfOtherWords kDoDebug {[w]} w).1 = false
  ∧ map length (tested (wordIsMadeOfOtherWords true stringSet w).2)
      `prefix_of` shrink_order (length w)
  ∧ ∀ r lines,
      call_in w (wordIsMadeOfOtherWords true stringSet w).2 r lines →
      Forall (λ s, s ≠ [] ∧ s ≠ r ∧ length s < length r) (looked_up lines).
Proof.
  split; [|split; [|split]].
  - pose proof (wordIsMadeOfOtherWords_composed ({[w]} ∪ stringSet) kDoDebug w) as H1.
    pose proof (wordIsMadeOfOtherWords_composed stringSet kDoDebug w) as H2.
    rewrite composed_add_self, <- H2 in H1.
    destruct (wordIsMadeOfOtherWords kDoDebug ({[w]} ∪ stringSet) w).1,
      (wordIsMadeOfOtherWords kDoDebug stringSet w).1; naive_solver.
  - apply not_true_is_false. rewrite wordIsMadeOfOtherWords_composed.
    apply not_composed_singleton.
  - pose proof (wordIsMadeOfOtherWords_lines stringSet w) as Hok.
    by destruct Hok.
  - intros r lines Hin. apply call_ok_looked_up.
    eapply call_in_ok; [exact Hin|]. apply wordIsMadeOfOtherWords_lines.
Qed.

Lemma no_self_match_witness :
  Forall (λ s, s ≠ [] ∧ s ≠ str "abab" ∧ length s < length (str "abab"))
    (looked_up (wordIsMadeOfOtherWords true abStore (str "abab")).2).
Proof.
  exact (proj2 (proj2 (proj2 (no_self_match true abStore (str "abab"))))
           _ _ (call_in_here _ _)).
Defined.

(** ** The sort of a bucket keeps its words *)

Lemma insertWord_Permutation (w : word) (sorted : list word) :
  insertWord w sorted ≡ₚ w :: sorted.
Proof.
  induction sorted as [|q rest IH]; [done|]. cbn [insertWord].
  case_decide; [|done]. by rewrite IH, Permutation_swap.
Qed.

Lemma sortBucket_Permutation (wordList : list word) :
  sortBucket wordList ≡ₚ wordList.
Proof.
  induction wordList as [|w rest IH]; [done|]. cbn [sortBucket].
  by rewrite insertWord_Permutation, IH.
Qed.

(** ** The word store *)

Section Store.

Lemma set_insert_present (stringSet : gset word) (line : word) :
  line ∈ stringSet → set_insert stringSet line = (stringSet, false).
Proof.
  intros Hin. unfold set_insert.
  by rewrite (proj2 (contains_true stringSet line) Hin).
Qed.

Lemma set_insert_absent (stringSet : gset word) (line : word) :
  line ∉ stringSet → set_insert stringSet line = ({[line]} ∪ stringSet, true).
Proof.
  intros Hin. unfold set_insert.
  by rewrite (proj2 (contains_false stringSet line) Hin).
Qed.

Lemma push_back_lookup (sizeHash : gmap nat (list word)) (lineLen len : nat)
    (p : word) :
  push_back sizeHash lineLen p !!! len
  = if decide (len = lineLen) then (sizeHash !!! len) ++ [p]
    else sizeHash !!! len.
Proof.
  unfold push_back. case_decide as Hlen.
  - subst. by rewrite lookup_total_insert_eq.
  - by rewrite lookup_total_insert_ne.
Qed.

Lemma store_inv_empty : store_inv ∅ ∅.
Proof.
  split.
  - intros len w. rewrite lookup_total_empty. by intros ?%elem_of_nil.
  - intros len w. rewrite lookup_total_empty. by intros ?%elem_of_nil.
  - intros w. by intros ?%not_elem_of_empty.
  - intros len. rewrite lookup_total_empty. constructor.
  - intros len. by rewrite lookup_empty.
Qed.

Lemma store_inv_insert (sizeHash : gmap nat (list word))
    (stringSet : gset word) (line : word) :
  store_inv sizeHash stringSet → line ∉ stringSet →
  store_inv (push_back sizeHash (length line) line) ({[line]} ∪ stringSet).
Proof.
  intros [Hmem Hlen Hidx Honce Hne] Hnew. split.
  - intros len w. rewrite push_back_lookup. case_decide.
    + intros [?| ->%list_elem_of_singleton]%elem_of_app; set_solver.
    + set_solver.
  - intros len w. rewrite push_back_lookup. case_decide.
    + intros [?| ->%list_elem_of_singleton]%elem_of_app; [auto | done].
    + auto.
  - intros w Hw. rewrite push_back_lookup.
    apply elem_of_union in Hw as [->%elem_of_singleton | Hw].
    + rewrite decide_True by done. set_solver.
    + apply Hidx in Hw. case_decide; set_solver.
  - intros len. rewrite push_back_lookup. case_decide; [|done].
    apply NoDup_app. split; [done|]. split; [|apply NoDup_singleton].
    intros w Hw ->%list_elem_of_singleton. by apply Hmem in Hw.
  - intros len. unfold push_back. rewrite lookup_insert. case_decide; [|done].
    intros [= Hnil]. by apply app_nil in Hnil as [_ ?].
Qed.

Lemma hashLines_inv (lines : list word) (sizeHash : gmap nat (list word))
    (stringSet : gset word) :
  store_inv sizeHash stringSet →
  store_inv (hashed_sizeHash (hashLines lines sizeHash stringSet))
    (hashed_stringSet (hashLines lines sizeHash stringSet)).
Proof.
  revert sizeHash stringSet.
  induction lines as [|line lines IH]; intros sizeHash stringSet Hinv; [done|].
  simpl. destruct (0 <? length (cleanWord line)); [|by apply IH].
  destruct (decide (cleanWord line ∈ stringSet)) as [Hin|Hin].
  - rewrite set_insert_present by done. done.
  - rewrite set_insert_absent by done. simpl.
    by apply IH, store_inv_insert.
Qed.

Lemma cleaned_cons (line : word) (lines : list word) :
  cleaned (line :: lines)
  = if 0 <? length (cleanWord line) then cleanWord line :: cleaned lines
    else cleaned lines.
Proof.
  unfold cleaned. rewrite fmap_cons.
  destruct (cleanWord line) as [|c s] eqn:Hc; simpl.
  - by rewrite filter_cons_False by naive_solver.
  - by rewrite filter_cons_True by done.
Qed.

(** The file is read to its end exactly when no word comes twice. *)
Lemma hashLines_ok (lines : list word) (sizeHash : gmap nat (list word))
    (stringSet : gset word) :
  hashed_ok (hashLines lines sizeHash stringSet) = true
  ↔ NoDup (cleaned lines) ∧ ∀ w, w ∈ cleaned lines → w ∉ stringSet.
Proof.
  revert sizeHash stringSet.
  induction lines as [|line lines IH]; intros sizeHash stringSet.
  - simpl. split; [|done]. intros _. split; [constructor|].
    intros w. by intros ?%elem_of_nil.
  - rewrite cleaned_cons. simpl.
    destruct (0 <? length (cleanWord line)); [|by apply IH].
    rewrite NoDup_cons.
    destruct (decide (cleanWord line ∈ stringSet)) as [Hin|Hin].
    + rewrite set_insert_present by done. simpl.
      split; [done|]. intros [_ Hnot]. destruct (Hnot (cleanWord line)); [|done].
      apply elem_of_cons. by left.
    + rewrite set_insert_absent by done. simpl. rewrite IH.
      setoid_rewrite elem_of_cons. set_solver.
Qed.

(** The store after a file read to its end: the set of the words, and in
    each bucket the words of that length in the order of the file. *)
Lemma hashLines_result (lines : list word) (sizeHash : gmap nat (list word))
    (stringSet : gset word) :
  hashed_ok (hashLines lines sizeHash stringSet) = true →
  hashed_stringSet (hashLines lines sizeHash stringSet)
  = list_to_set (cleaned lines) ∪ stringSet
  ∧ (∀ len, hashed_sizeHash (hashLines lines sizeHash stringSet) !!! len
            = sizeHash !!! len ++ filter (λ w, length w = len) (cleaned lines))
  ∧ hashed_out (hashLines lines sizeHash stringSet) = [].
Proof.
  revert sizeHash stringSet.
  induction lines as [|line lines IH]; intros sizeHash stringSet.
  - simpl. intros _. split; [set_solver|]. split; [|done].
    intros len. by rewrite app_nil_r.
  - rewrite cleaned_cons. simpl.
    destruct (0 <? length (cleanWord line)); [|by apply IH].
    destruct (decide (cleanWord line ∈ stringSet)) as [Hin|Hin].
    + rewrite set_insert_present by done. done.
    + rewrite set_insert_absent by done. simpl.
      intros (Hset & Hmap & Hout)%IH. split; [|split; [|done]].
      * rewrite Hset. set_solver.
      * intros len. rewrite Hmap, push_back_lookup.
        destruct (decide (len = length (cleanWord line))) as [->|Hne].
        -- rewrite filter_cons_True by done. by rewrite <- app_assoc.
        -- by rewrite filter_cons_False by done.
Qed.

(** Where the reading stops, only the error line is printed. *)
Lemma hashLines_failed (lines : list word) (sizeHash : gmap nat (list word))
    (stringSet : gset word) :
  hashed_ok (hashLines lines sizeHash stringSet) = false →
  hashed_out (hashLines lines sizeHash stringSet) = [NotInserted].
Proof.
  revert sizeHash stringSet.
  induction lines as [|line lines IH]; intros sizeHash stringSet; [done|].
  simpl. destruct (0 <? length (cleanWord line)); [|by apply IH].
  destruct (set_insert stringSet (cleanWord line)) as [s []]; simpl;
    [by apply IH | done].
Qed.
End Store.

(** C8. The store that [hashStringFile] builds from any file satisfies the
    invariant, whether the file was read to its end or not; and the sort of
    the buckets asked by [kDoPreSort] keeps it. *)
Theorem hashStringFile_store_inv (lines : list word) (kDoPreSort : bool) :
  let h := hashStringFile lines in
  store_inv (hashed_sizeHash h) (hashed_stringSet h)
  ∧ store_inv (extractAndSortKeysFromSizeHash kDoPreSort (hashed_sizeHash h)).2
      (hashed_stringSet h).
Proof.
  simpl. pose proof (hashLines_inv lines ∅ ∅ store_inv_empty) as Hinv.
  split; [done|]. fold (hashStringFile lines) in Hinv.
  destruct kDoPreSort; [|done]. simpl.
  assert (∀ len, (sortBucket <$> hashed_sizeHash (hashStringFile lines)) !!! len
                 ≡ₚ hashed_sizeHash (hashStringFile lines) !!! len) as Hperm.
  { intros len. rewrite !lookup_total_alt, lookup_fmap.
    destruct (hashed_sizeHash (hashStringFile lines) !! len); simpl; [|done].
    apply sortBucket_Permutation. }
  destruct Hinv as [Hmem Hlen Hidx Honce Hne]. split.
  - intros len w. rewrite Hperm. apply Hmem.
  - intros len w. rewrite Hperm. apply Hlen.
  - intros w. rewrite Hperm. apply Hidx.
  - intros len. rewrite Hperm. apply Honce.
  - intros len. rewrite lookup_fmap.
    destruct (hashed_sizeHash (hashStringFile lines) !! len) as [l|] eqn:Hl;
      [|done].
    simpl. intros [= Hnil]. apply (Hne len). rewrite Hl. f_equal.
    apply Permutation_nil_r. rewrite <- Hnil. symmetry.
    apply sortBucket_Permutation.
Qed.

(** ** The scan *)

Section ScanLemmas.
Context (stringSet : gset word).

Lemma made_debug (kDoDebug : bool) (w : word) :
  (wordIsMadeOfOtherWords kDoDebug stringSet w).1 = made stringSet w.
Proof.
  pose proof (wordIsMadeOfOtherWords_composed stringSet kDoDebug w) as H1.
  pose proof (wordIsMadeOfOtherWords_composed stringSet false w) as H2.
  unfold made. rewrite <- H2 in H1.
  destruct (wordIsMadeOfOtherWords kDoDebug stringSet w).1,
    (wordIsMadeOfOtherWords false stringSet w).1; naive_solver.
Qed.

Lemma made_composed (w : word) : made stringSet w = true ↔ composed stringSet w.
Proof. apply wordIsMadeOfOtherWords_composed. Qed.

Lemma made_length (w : word) : made stringSet w = true → 2 ≤ length w.
Proof.
  intros (k & Hk & _)%made_composed%composed_unfold. lia.
Qed.

Lemma tried_app (l1 l2 : list event) : tried (l1 ++ l2) = tried l1 ++ tried l2.
Proof. unfold tried. apply omap_app. Qed.

Lemma tried_call (w : word) : tried (wordIsMadeOfOtherWords true stringSet w).2 = [].
Proof.
  pose proof (wordIsMadeOfOtherWords_lines stringSet w) as Hok.
  inversion Hok as [? ? _ Hev]; subst.
  destruct (tried _) as [|r l] eqn:Htried; [done|].
  assert (r ∈ tried (wordIsMadeOfOtherWords true stringSet w).2) as Hr
    by (rewrite Htried; apply elem_of_cons; by left).
  apply list_elem_of_omap in Hr as (e & He & Hr).
  apply Hev in He. by destruct He.
Qed.

Lemma tryWord_outcome (kDoDebug : bool) (st : Scan) (hits : list word) (w : word) :
  outcome st = outcome_of hits →
  outcome (tryWord kDoDebug stringSet st w)
  = outcome_of (hits ++ filter (λ w, made stringSet w = true) [w]).
Proof.
  destruct st as [fw sw ff sf c out]. unfold outcome, tryWord. simpl.
  intros [= -> -> -> -> ->]. rewrite made_debug.
  destruct (made stringSet w) eqn:Hw.
  - rewrite filter_cons_True, filter_nil by done.
    destruct hits as [|a [|b hits]]; simpl; unfold outcome_of; simpl;
      rewrite ?length_app; simpl; repeat f_equal; lia.
  - rewrite filter_cons_False, filter_nil by (by rewrite Hw).
    by rewrite app_nil_r.
Qed.

Lemma tryWord_tried (st : Scan) (w : word) :
  tried (scan_out (tryWord true stringSet st w)) = tried (scan_out st) ++ [w].
Proof.
  unfold tryWord.
  destruct (wordIsMadeOfOtherWords true stringSet w).1 eqn:Hw; simpl.
  - destruct (secondFound st), (firstFound st); simpl;
      by rewrite !tried_app, tried_call, !app_nil_r.
  - by rewrite !tried_app, tried_call, !app_nil_r.
Qed.

Lemma tryBucket_outcome (kDoDebug : bool) (wordList : list word) :
  ∀ (st : Scan) (before : list word),
    outcome st = outcome_of (filter (λ w, made stringSet w = true) before) →
    outcome (tryBucket kDoDebug stringSet st wordList)
    = outcome_of (filter (λ w, made stringSet w = true) (before ++ wordList)).
Proof.
  unfold tryBucket.
  induction wordList as [|w wordList IH]; intros st before Hst; simpl.
  - by rewrite app_nil_r.
  - rewrite (assoc_L _ before [w] wordList : before ++ w :: wordList = _).
    apply IH. rewrite filter_app. by apply tryWord_outcome.
Qed.

Lemma tryBucket_tried (wordList : list word) :
  ∀ st : Scan,
    tried (scan_out (tryBucket true stringSet st wordList))
    = tried (scan_out st) ++ wordList.
Proof.
  unfold tryBucket.
  induction wordList as [|w wordList IH]; intros st; simpl.
  - by rewrite app_nil_r.
  - rewrite IH, tryWord_tried. by rewrite <- app_assoc.
Qed.

Lemma tryKeys_outcome (kDoDebug : bool) (sizeHash : gmap nat (list word))
    (keyList : list nat) (st : Scan) :
  outcome st = outcome_of [] →
  outcome (tryKeys kDoDebug stringSet sizeHash keyList st)
  = outcome_of (filter (λ w, made stringSet w = true)
                  (reverse keyList ≫= λ key, sizeHash !!! key)).
Proof.
  unfold tryKeys. intros Hst.
  change [] with (filter (λ w, made stringSet w = true) []) in Hst.
  rewrite <- (app_nil_l (_ ≫= _)).
  revert st Hst. generalize (@nil word) as before.
  induction (reverse keyList) as [|key keys IH]; intros before st Hst; simpl.
  - by rewrite app_nil_r.
  - rewrite app_assoc. apply IH. by apply tryBucket_outcome.
Qed.

Lemma tryKeys_tried (sizeHash : gmap nat (list word)) (keyList : list nat)
    (st : Scan) :
  tried (scan_out (tryKeys true stringSet sizeHash keyList st))
  = tried (scan_out st) ++ (reverse keyList ≫= λ key, sizeHash !!! key).
Proof.
  unfold tryKeys. revert st.
  induction (reverse keyList) as [|key keys IH]; intros st; simpl.
  - by rewrite app_nil_r.
  - by rewrite IH, tryBucket_tried, <- app_assoc.
Qed.
End ScanLemmas.

Section Order.

Lemma bucketOrder_perm (kDoPreSort : bool) (wordList : list word) :
  bucketOrder kDoPreSort wordList ≡ₚ wordList.
Proof. destruct kDoPreSort; [apply sortBucket_Permutation | done]. Qed.

Lemma extract_bucket (kDoPreSort : bool) (sizeHash : gmap nat (list word))
    (key : nat) :
  (extractAndSortKeysFromSizeHash kDoPreSort sizeHash).2 !!! key
  = bucketOrder kDoPreSort (sizeHash !!! key).
Proof.
  destruct kDoPreSort; [|done]. simpl.
  rewrite !lookup_total_alt, lookup_fmap.
  by destruct (sizeHash !! key).
Qed.

Lemma extract_keys_perm (kDoPreSort : bool) (sizeHash : gmap nat (list word)) :
  (extractAndSortKeysFromSizeHash kDoPreSort sizeHash).1
  ≡ₚ (map_to_list sizeHash).*1.
Proof. apply merge_sort_Permutation. Qed.

Lemma extract_keys_dom (kDoPreSort : bool) (sizeHash : gmap nat (list word))
    (key : nat) :
  key ∈ (extractAndSortKeysFromSizeHash kDoPreSort sizeHash).1
  ↔ key ∈ dom sizeHash.
Proof.
  rewrite extract_keys_perm, elem_of_dom, list_elem_of_fmap. split.
  - intros ([k l] & -> & Hin). apply elem_of_map_to_list in Hin. by exists l.
  - intros [l Hl]. exists (key, l). split; [done|].
    by apply elem_of_map_to_list.
Qed.

Lemma strictly_increasing (l : list nat) :
  Sorted le l → NoDup l → StronglySorted lt l.
Proof.
  intros Hs%Sorted_StronglySorted; [|apply _].
  induction Hs as [|x l _ IH Hall]; intros Hnd; [constructor|].
  apply NoDup_cons in Hnd as [Hx Hnd]. constructor; [by apply IH|].
  apply Forall_forall. intros y Hy.
  assert (x ≠ y) by (by intros ->).
  eapply Forall_forall in Hall; [|done]. lia.
Qed.

Lemma reverse_decreasing (l : list nat) :
  StronglySorted lt l → StronglySorted gt (reverse l).
Proof.
  induction 1 as [|x l _ IH Hall]; [constructor|].
  rewrite reverse_cons. apply StronglySorted_app. split; [|split; [done|]].
  - intros y z Hy Hz%list_elem_of_singleton. subst z.
    rewrite elem_of_reverse in Hy.
    rewrite Forall_forall in Hall. apply Hall in Hy. lia.
  - repeat constructor.
Qed.

Lemma extract_keys_decreasing (kDoPreSort : bool)
    (sizeHash : gmap nat (list word)) :
  StronglySorted gt (reverse (extractAndSortKeysFromSizeHash kDoPreSort sizeHash).1).
Proof.
  apply reverse_decreasing, strictly_increasing.
  - apply (Sorted_merge_sort le).
  - rewrite extract_keys_perm. apply NoDup_fst_map_to_list.
Qed.

Lemma bind_perm_ext {A B} (f g : A → list B) (l : list A) :
  (∀ x, x ∈ l → f x ≡ₚ g x) → l ≫= f ≡ₚ l ≫= g.
Proof.
  induction l as [|x l IH]; intros Hfg; [done|]. csimpl.
  rewrite Hfg, IH; [done| |].
  - intros y Hy. apply Hfg. by apply elem_of_cons; right.
  - by apply elem_of_cons; left.
Qed.

Lemma traversal_all_words (kDoPreSort : bool) (sizeHash : gmap nat (list word)) :
  traversal kDoPreSort sizeHash ≡ₚ all_words sizeHash.
Proof.
  unfold traversal, all_words.
  rewrite reverse_Permutation, extract_keys_perm.
  rewrite (bind_perm_ext _ (λ key, sizeHash !!! key))
    by (intros; apply bucketOrder_perm).
  pose proof (λ k l, proj1 (elem_of_map_to_list sizeHash k l)) as Hin.
  induction (map_to_list sizeHash) as [|[k l] kls IH]; [done|]. csimpl.
  rewrite IH.
  - rewrite (lookup_total_correct sizeHash k l); [done|].
    apply Hin. by apply elem_of_cons; left.
  - intros k' l' Hkl. apply Hin. by apply elem_of_cons; right.
Qed.

(** The outcome and the lines of a scan, by the order of the scan. *)
Lemma scan_outcome (kDoDebug kDoPreSort : bool) (stringSet : gset word)
    (sizeHash : gmap nat (list word)) :
  outcome (findLongestWordsOfWords kDoDebug kDoPreSort stringSet sizeHash)
  = outcome_of (filter (λ w, made stringSet w = true)
                  (traversal kDoPreSort sizeHash)).
Proof.
  unfold findLongestWordsOfWords, traversal.
  pose proof (extract_bucket kDoPreSort sizeHash) as Hbucket.
  destruct (extractAndSortKeysFromSizeHash kDoPreSort sizeHash)
    as [keyList sizeHash'].
  simpl in *. rewrite tryKeys_outcome by done.
  do 2 f_equal. apply list_bind_ext; [|done]. intros key. apply Hbucket.
Qed.

Lemma scan_tried (kDoPreSort : bool) (stringSet : gset word)
    (sizeHash : gmap nat (list word)) :
  tried (scan_out (findLongestWordsOfWords true kDoPreSort stringSet sizeHash))
  = traversal kDoPreSort sizeHash.
Proof.
  unfold findLongestWordsOfWords, traversal.
  pose proof (extract_bucket kDoPreSort sizeHash) as Hbucket.
  destruct (extractAndSortKeysFromSizeHash kDoPreSort sizeHash)
    as [keyList sizeHash'].
  simpl in *. rewrite tryKeys_tried. simpl.
  apply list_bind_ext; [|done]. intros key. apply Hbucket.
Qed.

(** In a store that satisfies the invariant the keys are the lengths of
    the members, and the scan goes once through the members. *)
Lemma store_inv_dom (sizeHash : gmap nat (list word)) (stringSet : gset word)
    (len : nat) :
  store_inv sizeHash stringSet →
  len ∈ dom sizeHash ↔ ∃ w, w ∈ stringSet ∧ length w = len.
Proof.
  intros [Hmem Hlen Hidx _ Hne]. rewrite elem_of_dom. split.
  - intros [l Hl]. destruct l as [|w l]; [by apply Hne in Hl|].
    assert (w ∈ sizeHash !!! len) as Hw.
    { rewrite (lookup_total_correct _ _ _ Hl). by apply elem_of_cons; left. }
    exists w. split; [by eapply Hmem | by eapply Hlen].
  - intros (w & Hw%Hidx & <-). rewrite lookup_total_alt in Hw.
    destruct (sizeHash !! length w); [done|]. by apply elem_of_nil in Hw.
Qed.

Lemma traversal_members (kDoPreSort : bool) (sizeHash : gmap nat (list word))
    (stringSet : gset word) :
  store_inv sizeHash stringSet →
  traversal kDoPreSort sizeHash ≡ₚ elements stringSet.
Proof.
  intros Hinv. pose proof Hinv as [Hmem Hlen Hidx Honce Hne].
  apply NoDup_Permutation.
  - apply NoDup_bind.
    + intros len1 len2 w _ _.
      rewrite !bucketOrder_perm. intros <-%Hlen <-%Hlen. done.
    + intros len _. rewrite bucketOrder_perm. apply Honce.
    + rewrite reverse_Permutation, extract_keys_perm.
      apply NoDup_fst_map_to_list.
  - apply NoDup_elements.
  - intros w. rewrite elem_of_elements. unfold traversal.
    rewrite list_elem_of_bind. setoid_rewrite bucketOrder_perm.
    setoid_rewrite elem_of_reverse. setoid_rewrite extract_keys_dom.
    split.
    + intros (len & Hw & _). by eapply Hmem.
    + intros Hw. exists (length w). split; [by apply Hidx|].
      eapply store_inv_dom; [done|]. by exists w.
Qed.
End Order.

Section ScanFacts.
Context (stringSet : gset word).

Lemma scan_fields (kDoDebug kDoPreSort : bool) (sizeHash : gmap nat (list word)) :
  let st := findLongestWordsOfWords kDoDebug kDoPreSort stringSet sizeHash in
  let hits := filter (λ w, made stringSet w = true)
                (traversal kDoPreSort sizeHash) in
  firstWord st = default [] (hits !! 0)
  ∧ secondWord st = default [] (hits !! 1)
  ∧ countFound st = length hits.
Proof.
  simpl. pose proof (scan_outcome kDoDebug kDoPreSort stringSet sizeHash) as H.
  unfold outcome, outcome_of in H. by injection H as -> -> _ _ ->.
Qed.

Lemma traversal_bucket (kDoPreSort : bool) (sizeHash : gmap nat (list word))
    (w : word) :
  w ∈ traversal kDoPreSort sizeHash ↔ ∃ len, w ∈ sizeHash !!! len.
Proof.
  unfold traversal. rewrite list_elem_of_bind.
  setoid_rewrite bucketOrder_perm. setoid_rewrite elem_of_reverse.
  setoid_rewrite (extract_keys_dom kDoPreSort). split.
  - intros (len & Hw & _). by exists len.
  - intros (len & Hw). exists len. split; [done|].
    rewrite lookup_total_alt in Hw. apply elem_of_dom.
    destruct (sizeHash !! len); [done|]. by apply elem_of_nil in Hw.
Qed.

Lemma hits_nonempty (l : list word) (i : nat) (w : word) :
  filter (λ w, made stringSet w = true) l !! i = Some w → w ≠ [].
Proof.
  intros Hw%list_elem_of_lookup_2%list_elem_of_filter.
  destruct Hw as [Hw%made_length _]. intros ->. simpl in Hw. lia.
Qed.
End ScanFacts.

(** C4. The scan tries every word of every bucket, also after the first and
    the second word are found, and counts the ones made of other words; in a
    store that satisfies the invariant it tries each member of the set once,
    and the count is the number of members made of other words. *)
Theorem scan_counts_all (kDoDebug kDoPreSort : bool) (stringSet : gset word)
    (sizeHash : gmap nat (list word)) :
  let visited :=
    tried (scan_out (findLongestWordsOfWords true kDoPreSort stringSet sizeHash)) in
  let st := findLongestWordsOfWords kDoDebug kDoPreSort stringSet sizeHash in
  visited ≡ₚ all_words sizeHash
  ∧ (∀ len w, w ∈ sizeHash !!! len → w ∈ visited)
  ∧ countFound st = length (filter (λ w, made stringSet w = true) visited)
  ∧ (store_inv sizeHash stringSet →
     visited ≡ₚ elements stringSet
     ∧ countFound st
       = length (filter (λ w, made stringSet w = true) (elements stringSet))).
Proof.
  cbv zeta. rewrite scan_tried.
  destruct (scan_fields stringSet kDoDebug kDoPreSort sizeHash) as (_ & _ & Hcount).
  split; [apply traversal_all_words|].
  split; [intros len w Hw; apply traversal_bucket; by exists len|].
  split; [done|].
  intros Hinv. pose proof (traversal_members kDoPreSort _ _ Hinv) as Hperm.
  split; [done|]. by rewrite Hcount, Hperm.
Qed.

(** C7. An empty file, an empty store and a store where no word is made of
    other words are no errors: the empty file is read with success, the scan
    returns the count 0 and two empty words, and [main] prints this result. *)
Theorem nothing_found_is_no_error (kDoDebug kDoPreSort : bool) :
  hashStringFile [] = mkHashed true ∅ ∅ []
  ∧ main kDoDebug kDoPreSort [] = [Report [] [] 0]
  ∧ (∀ stringSet sizeHash,
       (∀ len w, w ∈ sizeHash !!! len → ¬ composed stringSet w) →
       outcome (findLongestWordsOfWords kDoDebug kDoPreSort stringSet sizeHash)
       = ([], [], false, false, 0))
  ∧ (∀ lines,
       NoDup (cleaned lines) →
       (∀ w, w ∈ cleaned lines → ¬ composed (list_to_set (cleaned lines)) w) →
       ∃ debugLines,
         main kDoDebug kDoPreSort lines = debugLines ++ [Report [] [] 0]).
Proof.
  assert (∀ stringSet sizeHash,
            (∀ len w, w ∈ sizeHash !!! len → ¬ composed stringSet w) →
            outcome (findLongestWordsOfWords kDoDebug kDoPreSort stringSet sizeHash)
            = ([], [], false, false, 0)) as Hnone.
  { intros stringSet sizeHash Hno. rewrite scan_outcome.
    destruct (filter _ _) as [|w hits] eqn:Hhits; [done|].
    assert (w ∈ filter (λ w, made stringSet w = true)
                  (traversal kDoPreSort sizeHash)) as Hw
      by (rewrite Hhits; by apply elem_of_cons; left).
    apply list_elem_of_filter in Hw as [Hmade [len Hw]%traversal_bucket].
    apply made_composed in Hmade. by apply Hno in Hw. }
  split; [done|]. split; [|split; [done|]].
  - by destruct kDoDebug, kDoPreSort.
  - intros lines Hnodup Hno.
    assert (hashed_ok (hashStringFile lines) = true) as Hok.
    { apply hashLines_ok. split; [done|]. intros w _. apply not_elem_of_empty. }
    pose proof (hashLines_inv lines ∅ ∅ store_inv_empty) as Hinv.
    pose proof (hashLines_result lines ∅ ∅ Hok) as (Hset & _ & Hout).
    fold (hashStringFile lines) in Hinv, Hset, Hout.
    rewrite union_empty_r_L in Hset.
    unfold main. rewrite Hok, Hout. simpl.
    eexists. f_equal.
    specialize (Hnone (hashed_stringSet (hashStringFile lines))
                  (hashed_sizeHash (hashStringFile lines))).
    unfold outcome in Hnone. unfold report_of.
    assert (∀ len w, w ∈ hashed_sizeHash (hashStringFile lines) !!! len →
              ¬ composed (hashed_stringSet (hashStringFile lines)) w) as Hno'.
    { intros len w Hw%(inv_member _ _ Hinv). rewrite Hset in *.
      apply Hno. by apply elem_of_list_to_set in Hw. }
    apply Hnone in Hno'. by injection Hno' as -> -> _ _ ->.
Qed.

(** C9. The count of the scan depends neither on [kDoPreSort] nor on
    [kDoDebug] nor on the order of the words in the buckets, nor on the
    bucket a word is in: two length maps with the same words give the same
    count.  Whether a word is made of other words is decided from the set
    alone. *)
Theorem count_independent_of_order (kDoDebug kDoDebug' kDoPreSort kDoPreSort' : bool)
    (stringSet : gset word) (sizeHash sizeHash' : gmap nat (list word)) :
  countFound (findLongestWordsOfWords kDoDebug true stringSet sizeHash)
  = countFound (findLongestWordsOfWords kDoDebug' false stringSet sizeHash)
  ∧ (all_words sizeHash ≡ₚ all_words sizeHash' →
     countFound (findLongestWordsOfWords kDoDebug kDoPreSort stringSet sizeHash)
     = countFound (findLongestWordsOfWords kDoDebug' kDoPreSort' stringSet sizeHash'))
  ∧ (∀ w, (wordIsMadeOfOtherWords kDoDebug stringSet w).1 = made stringSet w).
Proof.
  assert (∀ d d' s s' m m', all_words m ≡ₚ all_words m' →
            countFound (findLongestWordsOfWords d s stringSet m)
            = countFound (findLongestWordsOfWords d' s' stringSet m')) as Hgen.
  { intros d d' s s' m m' Hperm.
    destruct (scan_fields stringSet d s m) as (_ & _ & ->).
    destruct (scan_fields stringSet d' s' m') as (_ & _ & ->).
    by rewrite !traversal_all_words, Hperm. }
  split; [by apply Hgen|]. split; [apply Hgen|].
  intros w. apply made_debug.
Qed.

(** C10. After a scan [firstWord] is not empty exactly when the count is at
    least 1, and [secondWord] exactly when it is at least 2: a word made of
    other words has two characters or more. *)
Theorem found_words_nonempty (kDoDebug kDoPreSort : bool) (stringSet : gset word)
    (sizeHash : gmap nat (list word)) :
  let st := findLongestWordsOfWords kDoDebug kDoPreSort stringSet sizeHash in
  (firstWord st ≠ [] ↔ 1 ≤ countFound st)
  ∧ (secondWord st ≠ [] ↔ 2 ≤ countFound st).
Proof.
  simpl.
  destruct (scan_fields stringSet kDoDebug kDoPreSort sizeHash) as (-> & -> & ->).
  pose proof (hits_nonempty stringSet (traversal kDoPreSort sizeHash)) as Hne.
  destruct (filter _ _) as [|a [|b hits]]; simpl.
  - split; (split; [done | lia]).
  - split; [split; [lia | intros _; by apply (Hne 0)] | split; [done | lia]].
  - split; (split; [lia | intros _]); [by apply (Hne 0) | by apply (Hne 1)].
Qed.

(** ** The theorems at work on the examples *)

Lemma scan_counts_all_witness :
  tried (scan_out (findLongestWordsOfWords true true
                     (hashed_stringSet (hashStringFile abLines))
                     (hashed_sizeHash (hashStringFile abLines))))
  ≡ₚ elements (hashed_stringSet (hashStringFile abLines))
  ∧ countFound (findLongestWordsOfWords false true
                  (hashed_stringSet (hashStringFile abLines))
                  (hashed_sizeHash (hashStringFile abLines)))
    = length (filter (λ w, made (hashed_stringSet (hashStringFile abLines)) w = true)
                (elements (hashed_stringSet (hashStringFile abLines)))).
Proof.
  exact (proj2 (proj2 (proj2 (scan_counts_all false true _ _)))
           (hashLines_inv abLines ∅ ∅ store_inv_empty)).
Defined.

Lemma nothing_found_is_no_error_witness :
  ∃ debugLines, main true false catdogLines = debugLines ++ [Report [] [] 0].
Proof.
  apply (proj2 (proj2 (proj2 (nothing_found_is_no_error true false)))).
  - apply (bool_decide_unpack _). by vm_compute.
  - intros w Hw. rewrite <- made_composed.
    change (cleaned catdogLines) with catdogLines in Hw. unfold catdogLines in Hw.
    elem_cases Hw; by vm_compute.
Defined.

Lemma count_independent_of_order_witness :
  countFound (findLongestWordsOfWords false false
                (hashed_stringSet (hashStringFile abLines))
                (hashed_sizeHash (hashStringFile abLines)))
  = countFound (findLongestWordsOfWords false false
                  (hashed_stringSet (hashStringFile abLines))
                  (hashed_sizeHash (hashStringFile baLines))).
Proof.
  apply (proj1 (proj2 (count_independent_of_order false false false false
                         _ _ _))).
  vm_compute.
  etrans; [apply perm_swap|]. do 3 apply perm_skip. apply perm_swap.
Defined.

Lemma found_words_nonempty_witness :
  firstWord (findLongestWordsOfWords false false
               (hashed_stringSet (hashStringFile exceptLines))
               (hashed_sizeHash (hashStringFile exceptLines))) ≠ [].
Proof.
  apply (proj2 (proj1 (found_words_nonempty false false _ _))).
  vm_compute. lia.
Defined.

(** The scenarios of the specification. *)

Example exceptionally_is_made :
  wordIsMadeOfOtherWords false (list_to_set exceptLines) (str "exceptionally")
  = (true, [])
  ∧ main false false exceptLines = [Report (str "exceptionally") [] 1].
Proof. by vm_compute. Qed.

Example catdog_is_made :
  (wordIsMadeOfOtherWords false (list_to_set (str "catdog" :: catdogLines))
     (str "catdog")).1 = true
  ∧ main false false catdogLines = [Report [] [] 0].
Proof. by vm_compute. Qed.

Example abab_is_made :
  made (list_to_set abLines) (str "abab") = true
  ∧ main false false abLines = [Report (str "abab") (str "baab") 3]
  ∧ main false false baLines = [Report (str "baab") (str "abab") 3]
  ∧ main false true baLines = [Report (str "abab") (str "baab") 3].
Proof. by vm_compute. Qed.

(** Two words that [strcmp] finds equal are left in the order of the file by
    the sort of their bucket. *)
Example tied_words_keep_order :
  cleaned tiedLines = tiedLines
  ∧ strcmp aNULc aNULb = Eq
  ∧ sortBucket [aNULc; aNULb] = [aNULc; aNULb]
  ∧ sortBucket [aNULb; aNULc] = [aNULb; aNULc]
  ∧ main false false tiedLines = [Report aNULc aNULb 2]
  ∧ main false true tiedLines = [Report aNULc aNULb 2].
Proof. by vm_compute. Qed.

Example single_characters_not_made :
  main false false (map str ["a"; "b"; "c"]%string) = [Report [] [] 0].
Proof. by vm_compute. Qed.

Example debug_lines_abc :
  concat (map printed (wordIsMadeOfOtherWords true
                         (list_to_set (map str ["a"; "b"; "c"]%string))
                         (str "abc")).2)
  = [Testing (str "ab"); Testing (str "a"); MatchPartial (str "a") 1;
     Calling (str "bc") []; Testing (str "b"); MatchPartial (str "b") 1;
     MatchRemaining (str "c")].
Proof. by vm_compute. Qed.

(** ** cleanWord and its parts *)

Section Cleaning.

Lemma isSpace_true (c : ascii) : isSpace c = true ↔ c = " "%char.
Proof. unfold isSpace. apply bool_decide_eq_true. Qed.

Lemma isSpace_false (c : ascii) : isSpace c = false ↔ c ≠ " "%char.
Proof. unfold isSpace. apply bool_decide_eq_false. Qed.

Lemma popEndOfLine_app (eols rest : word) :
  Forall (λ c, isEndOfLine c = true) eols →
  popEndOfLine (eols ++ rest) = popEndOfLine rest.
Proof. induction 1 as [|c eols Hc _ IH]; [done|]. simpl. by rewrite Hc. Qed.

Lemma popEndOfLine_stop (rest : word) :
  (∀ c, head rest = Some c → isEndOfLine c = false) → popEndOfLine rest = rest.
Proof. destruct rest as [|c rest]; [done|]. intros Hc. simpl. by rewrite Hc. Qed.

Lemma popEndOfLine_split (reversed : word) :
  ∃ eols, reversed = eols ++ popEndOfLine reversed
          ∧ Forall (λ c, isEndOfLine c = true) eols
          ∧ ∀ c, head (popEndOfLine reversed) = Some c → isEndOfLine c = false.
Proof.
  induction reversed as [|c reversed (eols & Heq & Hall & Hhead)].
  - exists []. done.
  - simpl. destruct (isEndOfLine c) eqn:Hc.
    + exists (c :: eols). split; [by rewrite Heq at 1|]. split; [by constructor|done].
    + exists []. split; [done|]. split; [constructor|]. by intros ? [= <-].
Qed.

Lemma trimEndOfLine_app (p eols : word) :
  Forall (λ c, isEndOfLine c = true) eols → no_final_eol p →
  trimEndOfLine (p ++ eols) = p.
Proof.
  intros Hall Hp. unfold trimEndOfLine. rewrite reverse_app.
  rewrite popEndOfLine_app by (by apply Forall_reverse).
  rewrite popEndOfLine_stop; [apply reverse_involutive|].
  intros c. rewrite head_reverse. apply Hp.
Qed.

Lemma trimEndOfLine_split (s : word) :
  ∃ eols, s = trimEndOfLine s ++ eols
          ∧ Forall (λ c, isEndOfLine c = true) eols
          ∧ no_final_eol (trimEndOfLine s).
Proof.
  destruct (popEndOfLine_split (reverse s)) as (eols & Heq & Hall & Hhead).
  exists (reverse eols). unfold trimEndOfLine. split; [|split].
  - rewrite <- reverse_app, <- Heq. by rewrite reverse_involutive.
  - by apply Forall_reverse.
  - intros c. rewrite last_reverse. apply Hhead.
Qed.

(** The loop of [trimLeadingWhitespace] stops at the first character that
    is no space. *)
Lemma lastLeadingSpace_spaces (n : nat) (rest : word) (current : nat) (end_ : Z) :
  head rest ≠ Some " "%char →
  lastLeadingSpace (spaces n ++ rest) current end_
  = if decide (n = 0) then end_ else (Z.of_nat (current + n) - 1)%Z.
Proof.
  intros Hrest. revert current end_.
  induction n as [|n IH]; intros current end_.
  - simpl. destruct rest as [|c rest]; [done|]. simpl.
    destruct (isSpace c) eqn:Hc; [|done].
    apply isSpace_true in Hc. by subst c.
  - simpl. rewrite IH. destruct (decide (n = 0)); lia.
Qed.

Lemma trimLeadingWhitespace_app (n : nat) (rest : word) :
  head rest ≠ Some " "%char →
  trimLeadingWhitespace (spaces n ++ rest) = rest.
Proof.
  intros Hrest. unfold trimLeadingWhitespace.
  destruct (0 <? length (spaces n ++ rest)) eqn:Hlen.
  - rewrite lastLeadingSpace_spaces by done.
    destruct (decide (n = 0)) as [->|Hn]; [done|].
    assert ((0 <=? Z.of_nat (0 + n) - 1)%Z = true) as ->
      by (apply Z.leb_le; lia).
    unfold replace. simpl.
    replace (Z.to_nat (Z.of_nat n - 1) + 1) with (length (spaces n))
      by (unfold spaces; rewrite length_replicate; lia).
    apply drop_app_length.
  - apply Nat.ltb_ge in Hlen. destruct n; [done|]. simpl in Hlen. lia.
Qed.

Lemma leading_spaces_split (s : word) :
  ∃ n rest, s = spaces n ++ rest ∧ head rest ≠ Some " "%char.
Proof.
  induction s as [|c s (n & rest & -> & Hrest)].
  - exists 0, []. done.
  - destruct (decide (c = " "%char)) as [->|Hc].
    + exists (S n), rest. done.
    + exists 0, (c :: spaces n ++ rest). split; [done|]. simpl. congruence.
Qed.

Lemma trailing_spaces_split (s : word) :
  ∃ core n, s = core ++ spaces n ∧ last core ≠ Some " "%char.
Proof.
  destruct (leading_spaces_split (reverse s)) as (n & rest & Heq & Hrest).
  exists (reverse rest), n. split.
  - rewrite <- (reverse_involutive s), Heq, reverse_app.
    unfold spaces. by rewrite reverse_replicate.
  - by rewrite last_reverse.
Qed.

(** The loop of [trimTrailingWhitespace] stops at the last character that
    is no space. *)
Lemma firstTrailingSpace_spaces (n : nat) (before : word) (current end_ : Z) :
  head before ≠ Some " "%char →
  firstTrailingSpace (spaces n ++ before) current end_
  = if decide (n = 0) then end_ else (current - Z.of_nat n + 1)%Z.
Proof.
  intros Hrest. revert current end_.
  induction n as [|n IH]; intros current end_.
  - simpl. destruct before as [|c before]; [done|]. simpl.
    destruct (isSpace c) eqn:Hc; [|done].
    apply isSpace_true in Hc. by subst c.
  - simpl. rewrite IH. destruct (decide (n = 0)); lia.
Qed.

Lemma length_spaces (n : nat) : length (spaces n) = n.
Proof. apply length_replicate. Qed.

Lemma reverse_spaces (n : nat) : reverse (spaces n) = spaces n.
Proof. apply reverse_replicate. Qed.

Lemma trimTrailingWhitespace_app (core : word) (n : nat) :
  core ≠ [] → last core ≠ Some " "%char →
  trimTrailingWhitespace (core ++ spaces n) = core.
Proof.
  intros Hne Hcore. unfold trimTrailingWhitespace. cbv zeta.
  assert (0 < length core) as Hlen by (destruct core; [done | simpl; lia]).
  rewrite length_app, length_spaces, reverse_app, reverse_spaces.
  rewrite firstTrailingSpace_spaces by (by rewrite head_reverse).
  assert ((0 <? length core + n) = true) as -> by (apply Nat.ltb_lt; lia).
  destruct (decide (n = 0)) as [->|Hn].
  - simpl. by rewrite app_nil_r.
  - assert ((0 <=? Z.of_nat (length core + n) - 1 - Z.of_nat n + 1)%Z = true)
      as -> by (apply Z.leb_le; lia).
    unfold replace.
    replace (Z.to_nat (Z.of_nat (length core + n) - 1 - Z.of_nat n + 1))
      with (length core) by lia.
    rewrite take_app_length, drop_ge; [by rewrite app_nil_r|].
    rewrite length_app, length_spaces. lia.
Qed.

Lemma trimTrailingWhitespace_spaces (n : nat) :
  trimTrailingWhitespace (spaces (S n)) = [" "%char].
Proof.
  unfold trimTrailingWhitespace. cbv zeta.
  rewrite length_spaces, reverse_spaces.
  pose proof (firstTrailingSpace_spaces (S n) [] (Z.of_nat (S n) - 1) (-1)
                ltac:(done)) as Hend.
  rewrite app_nil_r, decide_False in Hend by done. rewrite Hend.
  assert ((0 <? S n) = true) as -> by done.
  assert ((0 <=? Z.of_nat (S n) - 1 - Z.of_nat (S n) + 1)%Z = true)
    as -> by (apply Z.leb_le; lia).
  unfold replace.
  replace (Z.to_nat (Z.of_nat (S n) - 1 - Z.of_nat (S n) + 1)) with 0 by lia.
  rewrite take_0, Nat.add_0_l, Nat.sub_succ, Nat.sub_0_r. simpl app.
  unfold spaces.
  rewrite replicate_S_end, drop_app_length'; [done|].
  by rewrite length_replicate.
Qed.

Lemma tolower_idemp (c : ascii) : tolower (tolower c) = tolower c.
Proof. by destruct c as [[] [] [] [] [] [] [] []]. Qed.

Lemma tolower_not_upper (c : ascii) : isUpper (tolower c) = false.
Proof. by destruct c as [[] [] [] [] [] [] [] []]. Qed.

Lemma tolower_other (c : ascii) : isUpper c = false → tolower c = c.
Proof. by destruct c as [[] [] [] [] [] [] [] []]. Qed.

Lemma tolower_upper (c : ascii) :
  isUpper c = true → nat_of_ascii (tolower c) = nat_of_ascii c + 32.
Proof. by destruct c as [[] [] [] [] [] [] [] []]. Qed.

Lemma tolower_space (c : ascii) : tolower c = " "%char ↔ c = " "%char.
Proof.
  assert (isSpace (tolower c) = isSpace c) as Heq
    by (by destruct c as [[] [] [] [] [] [] [] []]).
  by rewrite <- !isSpace_true, Heq.
Qed.

Lemma toLowerString_idemp (s : word) :
  toLowerString (toLowerString s) = toLowerString s.
Proof.
  unfold toLowerString. rewrite map_map. apply map_ext. apply tolower_idemp.
Qed.

Lemma last_spaces (n : nat) (c : ascii) : last (spaces n) = Some c → c = " "%char.
Proof.
  destruct n as [|n]; [done|]. unfold spaces.
  rewrite replicate_S_end, last_snoc. by intros [= <-].
Qed.

Lemma spaces_add (a b : nat) : spaces a ++ spaces b = spaces (a + b).
Proof. unfold spaces. by rewrite replicate_add. Qed.

(** A line made of a word, spaces around it and line ends after them. *)
Lemma cleanWord_app (a b : nat) (core eols : word) :
  Forall (λ c, isEndOfLine c = true) eols →
  no_outer_space core → (b = 0 → no_final_eol core) →
  cleanWord (spaces a ++ core ++ spaces b ++ eols) = toLowerString core.
Proof.
  intros Heols [Hhead Hlast] Hend. unfold cleanWord.
  rewrite (assoc_L (++) core), (assoc_L (++) (spaces a)).
  rewrite trimEndOfLine_app; [|done|].
  2:{ intros c. rewrite (assoc_L (++)). destruct b as [|b].
      - simpl. rewrite app_nil_r. destruct core as [|c0 core0] eqn:Hcore.
        + rewrite app_nil_r. by intros ->%last_spaces.
        + rewrite <- Hcore in *. rewrite last_app.
          destruct (last core) eqn:Hl;
            [|apply last_None in Hl; congruence].
          intros [= <-]. by apply Hend.
      - unfold spaces at 2. rewrite replicate_S_end, (assoc_L (++)), last_snoc.
        by intros [= <-]. }
  destruct core as [|c0 core0] eqn:Hcore.
  - simpl. rewrite spaces_add, <- (app_nil_r (spaces _)).
    by rewrite trimLeadingWhitespace_app.
  - rewrite <- Hcore in *.
    rewrite trimLeadingWhitespace_app by (by rewrite Hcore in *).
    rewrite trimTrailingWhitespace_app; [done| |done]. by rewrite Hcore.
Qed.

(** Every line is of that form. *)
Lemma cleanWord_split (s : word) :
  ∃ a b core eols,
    s = spaces a ++ core ++ spaces b ++ eols
    ∧ Forall (λ c, isEndOfLine c = true) eols
    ∧ no_outer_space core ∧ (b = 0 → no_final_eol core).
Proof.
  destruct (trimEndOfLine_split s) as (eols & Hs & Heols & Hp).
  destruct (leading_spaces_split (trimEndOfLine s)) as (a & rest & Hp' & Hrest).
  destruct (trailing_spaces_split rest) as (core & b & -> & Hcore).
  destruct core as [|c0 core0] eqn:Hc.
  - exists (a + b), 0, [], eols. simpl in *.
    split; [|done]. rewrite Hs at 1. rewrite Hp'. by rewrite spaces_add.
  - rewrite <- Hc in *. exists a, b, core, eols. split; [|split; [done|split]].
    + rewrite Hs at 1. rewrite Hp'. by rewrite <- !(assoc_L (++)).
    + split; [|done]. by rewrite Hc in *.
    + intros -> c Hl. apply Hp. rewrite Hp'. simpl. rewrite app_nil_r.
      rewrite last_app, Hl. done.
Qed.
End Cleaning.

(** ** strcmp and the sort of a bucket *)

Section Strcmp.

Lemma code_NUL (c : ascii) : nat_of_ascii c = 0 ↔ c = NUL.
Proof.
  assert ((nat_of_ascii c =? 0) = bool_decide (c = NUL)) as Heq
    by (by destruct c as [[] [] [] [] [] [] [] []]).
  by rewrite <- Nat.eqb_eq, Heq, bool_decide_eq_true.
Qed.

Lemma code_inj (x y : ascii) : nat_of_ascii x = nat_of_ascii y → x = y.
Proof.
  intros Heq. by rewrite <- (ascii_nat_embedding x), Heq, ascii_nat_embedding.
Qed.

Lemma strkey_nil : strkey [] = [].
Proof. done. Qed.

Lemma strkey_cons (c : ascii) (s : word) :
  strkey (c :: s) = if decide (c = NUL) then [] else nat_of_ascii c :: strkey s.
Proof. unfold strkey. simpl. by repeat case_bool_decide; case_decide. Qed.

(** [strcmp] compares the codes before the first NUL in the order of the
    dictionary. *)
Lemma strcmp_strkey (a b : word) :
  match strcmp a b with
  | Lt => lexico (strkey a) (strkey b)
  | Eq => strkey a = strkey b
  | Gt => lexico (strkey b) (strkey a)
  end.
Proof.
  revert b. induction a as [|x a IH]; intros [|y b]; cbn [strcmp].
  - done.
  - rewrite strkey_cons. destruct (Nat.compare_spec 0 (nat_of_ascii y)) as [H|H|H].
    + symmetry in H. apply code_NUL in H. by rewrite decide_True by done.
    + rewrite decide_False; [done|]. intros ?%code_NUL. lia.
    + lia.
  - rewrite strkey_cons. destruct (Nat.compare_spec (nat_of_ascii x) 0) as [H|H|H].
    + apply code_NUL in H. by rewrite decide_True by done.
    + lia.
    + rewrite decide_False; [done|]. intros ?%code_NUL. lia.
  - rewrite !strkey_cons.
    destruct (Nat.compare_spec (nat_of_ascii x) (nat_of_ascii y)) as [H|H|H].
    + apply code_inj in H. subst y. case_bool_decide as Hx.
      * by rewrite !decide_True by done.
      * rewrite !decide_False by done. specialize (IH b).
        destruct (strcmp a b); [by rewrite IH | by right | by right].
    + assert (y ≠ NUL) by (intros ?%code_NUL; lia).
      rewrite (decide_False (P := y = NUL)) by done.
      case_decide; [done | by left].
    + assert (x ≠ NUL) by (intros ?%code_NUL; lia).
      rewrite (decide_False (P := x = NUL)) by done.
      case_decide; [done | by left].
Qed.

Lemma strcmp_Lt (a b : word) : strcmp a b = Lt ↔ lexico (strkey a) (strkey b).
Proof.
  pose proof (strcmp_strkey a b) as H. split.
  - by intros Hlt; rewrite Hlt in H.
  - intros Hlex. destruct (strcmp a b); [|done|].
    + rewrite H in Hlex. by apply irreflexivity in Hlex; [|apply _].
    + destruct (asymmetry Hlex H).
Qed.




Lemma c_str_no_NUL (s : word) : NUL ∉ s → c_str s = s.
Proof.
  induction s as [|c s IH]; [done|]. intros Hs. simpl.
  rewrite bool_decide_eq_false_2 by (intros ->; apply Hs; by left).
  rewrite IH; [done|]. intros ?. apply Hs. by right.
Qed.

Lemma strkey_inj (a b : word) : NUL ∉ a → NUL ∉ b → strkey a = strkey b → a = b.
Proof.
  intros Ha Hb. unfold strkey. rewrite !c_str_no_NUL by done.
  revert b Hb. induction a as [|x a IH]; intros [|y b] Hb; try done.
  intros [= Hx%code_inj Hrest]. subst y. f_equal. apply IH; [|set_solver|done].
  set_solver.
Qed.


#[local] Instance notAfter_dec a b : Decision (notAfter a b).
Proof. unfold notAfter. apply _. Defined.

Lemma notAfter_strkey (a b : word) :
  notAfter a b ↔ strkey a = strkey b ∨ lexico (strkey a) (strkey b).
Proof.
  unfold notAfter, sizeHashSortFunction. rewrite strcmp_Lt.
  destruct (trichotomyT lexico (strkey a) (strkey b)) as [[H|H]|H].
  - split; [by right|]. intros _ H'. destruct (asymmetry H H').
  - split; [by left|]. intros _ H'. rewrite H in H'.
    by apply irreflexivity in H'; [|apply _].
  - split; [done|]. intros [Heq|H']; [|destruct (asymmetry H H')].
    rewrite Heq in H. by apply irreflexivity in H; [|apply _].
Qed.

#[local] Instance notAfter_total : Total notAfter.
Proof.
  intros a b. rewrite !notAfter_strkey.
  destruct (trichotomyT lexico (strkey a) (strkey b)) as [[H|H]|H]; auto.
Qed.

#[local] Instance notAfter_trans : Transitive notAfter.
Proof.
  intros a b c. rewrite !notAfter_strkey.
  intros [E1|H1] [E2|H2].
  - left. congruence.
  - right. by rewrite E1.
  - right. by rewrite <- E2.
  - right. by etrans.
Qed.

(** A word that goes in among sorted words leaves them sorted. *)
Lemma insertWord_sorted (w : word) (sorted : list word) :
  StronglySorted notAfter sorted → StronglySorted notAfter (insertWord w sorted).
Proof.
  induction 1 as [|q rest Hs IH Hall]; cbn [insertWord].
  - repeat constructor.
  - case_decide as Hqw.
    + constructor; [done|]. rewrite insertWord_Permutation.
      constructor; [|done]. intros Hwq. unfold sizeHashSortFunction in *.
      apply strcmp_Lt in Hqw, Hwq. destruct (asymmetry Hqw Hwq).
    + constructor; [by constructor|]. constructor; [done|].
      eapply Forall_impl; [done|]. intros r Hqr. by trans q.
Qed.

(** The sorted bucket is in the order of [strcmp]: no word is before a word
    on its left. *)
Lemma sortBucket_sorted (wordList : list word) :
  StronglySorted notAfter (sortBucket wordList).
Proof.
  induction wordList as [|w rest IH]; [constructor|].
  cbn [sortBucket]. by apply insertWord_sorted.
Qed.



Lemma strkey_NoDup_inj (l : list word) (a b : word) :
  NoDup (strkey <$> l) → a ∈ l → b ∈ l → strkey a = strkey b → a = b.
Proof.
  induction l as [|x l IH]; [by intros _ ?%elem_of_nil|].
  rewrite fmap_cons, NoDup_cons, !elem_of_cons.
  intros [Hx Hnd] [->|Ha] [->|Hb] Heq; [done| | |by apply IH].
  - destruct Hx. rewrite Heq. by apply list_elem_of_fmap_2.
  - destruct Hx. rewrite <- Heq. by apply list_elem_of_fmap_2.
Qed.

(** Two sorted lists of the same words are equal. *)
Lemma sorted_unique (l1 l2 : list word) :
  NoDup (strkey <$> l1) → l1 ≡ₚ l2 →
  StronglySorted notAfter l1 → StronglySorted notAfter l2 → l1 = l2.
Proof.
  intros Hnd Hperm H1 H2. apply (StronglySorted_unique_strong notAfter); try done.
  intros a b Ha Hb Hab Hba. rewrite <- Hperm in Hb.
  apply (strkey_NoDup_inj l1); [done..|].
  apply notAfter_strkey in Hab as [?|Hab]; [done|].
  apply notAfter_strkey in Hba as [?|Hba]; [done|].
  destruct (asymmetry Hab Hba).
Qed.

Lemma sortBucket_perm (l1 l2 : list word) :
  NoDup (strkey <$> l1) → l1 ≡ₚ l2 → sortBucket l1 = sortBucket l2.
Proof.
  intros Hnd Hperm.
  assert (NoDup (strkey <$> l2)) as Hnd2 by (by rewrite <- Hperm).
  apply sorted_unique.
  - by rewrite sortBucket_Permutation.
  - by rewrite !sortBucket_Permutation.
  - apply sortBucket_sorted.
  - apply sortBucket_sorted.
Qed.

Lemma StronglySorted_weaken {A} (R R' : relation A) (l : list A) :
  (∀ a b, R a b → R' a b) → StronglySorted R l → StronglySorted R' l.
Proof.
  intros Himpl. induction 1 as [|x l _ IH Hall]; constructor; [done|].
  eapply Forall_impl; [done|]. apply Himpl.
Qed.

Lemma sortBucket_of_sorted (l : list word) :
  StronglySorted sizeHashSortFunction l → sortBucket l = l.
Proof.
  intros Hs.
  assert (NoDup (strkey <$> l)) as Hnd.
  { induction Hs as [|x l Hs IH Hall]; [constructor|].
    rewrite fmap_cons. constructor; [|done].
    intros (y & Heq & Hy)%list_elem_of_fmap.
    rewrite Forall_forall in Hall. apply Hall in Hy.
    unfold sizeHashSortFunction in Hy. apply strcmp_Lt in Hy.
    rewrite Heq in Hy. by apply irreflexivity in Hy; [|apply _]. }
  apply sorted_unique.
  - by rewrite sortBucket_Permutation.
  - by rewrite sortBucket_Permutation.
  - apply sortBucket_sorted.
  - eapply StronglySorted_weaken; [|done].
    intros a b Hab Hba. unfold sizeHashSortFunction in *.
    apply strcmp_Lt in Hab, Hba. destruct (asymmetry Hab Hba).
Qed.
End Strcmp.

(** ** The order of the scan *)



(** ** The scan as one pass over the words *)

Section ScanPass.

Lemma foldl_bind {A B C} (f : A → C → A) (g : B → list C) (l : list B) (a : A) :
  foldl f a (l ≫= g) = foldl (λ a x, foldl f a (g x)) a l.
Proof.
  revert a. induction l as [|x l IH]; intros a; [done|].
  csimpl. by rewrite foldl_app, IH.
Qed.

Lemma foldl_ext_in {A B} (f g : A → B → A) (l : list B) (a : A) :
  (∀ a x, x ∈ l → f a x = g a x) → foldl f a l = foldl g a l.
Proof.
  revert a. induction l as [|x l IH]; intros a Hfg; [done|]. simpl.
  rewrite Hfg by (by left). apply IH. intros a' y Hy. apply Hfg. by right.
Qed.

Lemma scan_as_fold (kDoDebug kDoPreSort : bool) (stringSet : gset word)
    (sizeHash : gmap nat (list word)) :
  findLongestWordsOfWords kDoDebug kDoPreSort stringSet sizeHash
  = foldl (tryWord kDoDebug stringSet) scan_start (traversal kDoPreSort sizeHash).
Proof.
  unfold findLongestWordsOfWords, traversal.
  pose proof (extract_bucket kDoPreSort sizeHash) as Hbucket.
  destruct (extractAndSortKeysFromSizeHash kDoPreSort sizeHash)
    as [keyList sizeHash'].
  simpl in *. unfold tryKeys, tryBucket. rewrite foldl_bind.
  apply foldl_ext_in. intros st key _. by rewrite Hbucket.
Qed.

Lemma extract_keys_eq (kDoPreSort kDoPreSort' : bool)
    (sizeHash sizeHash' : gmap nat (list word)) :
  dom sizeHash = dom sizeHash' →
  (extractAndSortKeysFromSizeHash kDoPreSort sizeHash).1
  = (extractAndSortKeysFromSizeHash kDoPreSort' sizeHash').1.
Proof.
  intros Hdom. apply (Sorted_unique le).
  - apply (Sorted_merge_sort le).
  - apply (Sorted_merge_sort le).
  - apply NoDup_Permutation.
    + rewrite extract_keys_perm. apply NoDup_fst_map_to_list.
    + rewrite extract_keys_perm. apply NoDup_fst_map_to_list.
    + intros key. by rewrite !extract_keys_dom, Hdom.
Qed.

Lemma traversal_eq (kDoPreSort kDoPreSort' : bool)
    (sizeHash sizeHash' : gmap nat (list word)) :
  dom sizeHash = dom sizeHash' →
  (∀ key, bucketOrder kDoPreSort (sizeHash !!! key)
          = bucketOrder kDoPreSort' (sizeHash' !!! key)) →
  traversal kDoPreSort sizeHash = traversal kDoPreSort' sizeHash'.
Proof.
  intros Hdom Hbucket. unfold traversal.
  rewrite (extract_keys_eq kDoPreSort kDoPreSort' sizeHash sizeHash' Hdom).
  apply list_bind_ext; [|done]. apply Hbucket.
Qed.

Lemma filter_strongly_sorted {A} (R : relation A) (P : A → Prop)
    `{∀ x, Decision (P x)} (l : list A) :
  StronglySorted R l → StronglySorted R (filter P l).
Proof.
  induction 1 as [|x l _ IH Hall]; [constructor|].
  rewrite filter_cons. case_decide; [|done].
  constructor; [done|]. apply Forall_forall.
  intros y [_ Hy]%list_elem_of_filter. rewrite Forall_forall in Hall. auto.
Qed.

Lemma sorted_strkey_NoDup (l : list word) :
  StronglySorted sizeHashSortFunction l → NoDup (strkey <$> l).
Proof.
  induction 1 as [|x l Hs IH Hall]; [constructor|].
  rewrite fmap_cons. constructor; [|done].
  intros (y & Heq & Hy)%list_elem_of_fmap.
  rewrite Forall_forall in Hall. apply Hall in Hy.
  unfold sizeHashSortFunction in Hy. apply strcmp_Lt in Hy.
  rewrite Heq in Hy. by apply irreflexivity in Hy; [|apply _].
Qed.

Lemma no_NUL_strkey_NoDup (l : list word) :
  Forall (λ w, NUL ∉ w) l → NoDup l → NoDup (strkey <$> l).
Proof.
  induction 1 as [|x l Hx Hall IH]; [constructor|].
  rewrite fmap_cons, !NoDup_cons. intros [Hin Hnd]. split; [|by apply IH].
  intros (y & Heq & Hy)%list_elem_of_fmap.
  rewrite Forall_forall in Hall.
  apply strkey_inj in Heq; [by subst|done|by apply Hall].
Qed.

Lemma filter_strkey_NoDup (P : word → Prop) `{∀ x, Decision (P x)} (l : list word) :
  NoDup (strkey <$> l) → NoDup (strkey <$> filter P l).
Proof.
  induction l as [|x l IH]; [done|].
  rewrite fmap_cons, NoDup_cons. intros [Hx Hnd].
  rewrite filter_cons. case_decide; [|by apply IH].
  rewrite fmap_cons, NoDup_cons. split; [|by apply IH].
  intros (y & Heq & [_ Hy]%list_elem_of_filter)%list_elem_of_fmap.
  apply Hx. rewrite Heq. by apply list_elem_of_fmap_2.
Qed.

(** The store after a file without a word twice. *)
Lemma hashStringFile_result (lines : list word) :
  NoDup (cleaned lines) →
  let h := hashStringFile lines in
  hashed_ok h = true ∧ hashed_out h = []
  ∧ hashed_stringSet h = list_to_set (cleaned lines)
  ∧ (∀ len, hashed_sizeHash h !!! len
            = filter (λ w, length w = len) (cleaned lines))
  ∧ store_inv (hashed_sizeHash h) (hashed_stringSet h).
Proof.
  intros Hnd. cbv zeta.
  assert (hashed_ok (hashStringFile lines) = true) as Hok.
  { apply hashLines_ok. split; [done|]. intros w _. apply not_elem_of_empty. }
  pose proof (hashLines_result lines ∅ ∅ Hok) as (Hset & Hmap & Hout).
  fold (hashStringFile lines) in Hset, Hmap, Hout.
  split; [done|]. split; [done|]. split; [by rewrite Hset, union_empty_r_L|].
  split; [|apply (hashLines_inv lines ∅ ∅ store_inv_empty)].
  intros len. by rewrite Hmap, lookup_total_empty.
Qed.

Lemma hashStringFile_dom (lines : list word) (len : nat) :
  NoDup (cleaned lines) →
  len ∈ dom (hashed_sizeHash (hashStringFile lines))
  ↔ ∃ w, w ∈ cleaned lines ∧ length w = len.
Proof.
  intros (_ & _ & Hset & _ & Hinv)%hashStringFile_result.
  rewrite (store_inv_dom _ _ len Hinv), Hset.
  by setoid_rewrite elem_of_list_to_set.
Qed.

(** X11. With [kDoPreSort] the order of the lines of the file does not
    matter: two files with the same words, none twice and none with a NUL
    character, make [main] print the same lines. *)
Theorem presort_file_order (kDoDebug : bool) (lines lines' : list word) :
  Forall (λ w, NUL ∉ w) (cleaned lines) → NoDup (cleaned lines) →
  cleaned lines ≡ₚ cleaned lines' →
  main kDoDebug true lines = main kDoDebug true lines'.
Proof.
  intros Hnul Hnd Hperm.
  assert (NoDup (cleaned lines')) as Hnd' by (by rewrite <- Hperm).
  pose proof (hashStringFile_result lines Hnd) as (Hok & Hout & Hset & Hmap & _).
  pose proof (hashStringFile_result lines' Hnd') as (Hok' & Hout' & Hset' & Hmap' & _).
  unfold main. rewrite Hok, Hok', Hout, Hout'.
  assert (hashed_stringSet (hashStringFile lines)
          = hashed_stringSet (hashStringFile lines')) as <-.
  { rewrite Hset, Hset'. apply set_eq. intros w.
    by rewrite !elem_of_list_to_set, Hperm. }
  rewrite !scan_as_fold.
  rewrite (traversal_eq true true _ (hashed_sizeHash (hashStringFile lines')));
    [done| |].
  - apply set_eq. intros len. rewrite !hashStringFile_dom by done.
    by setoid_rewrite Hperm.
  - intros key. simpl. rewrite Hmap, Hmap'. apply sortBucket_perm.
    + apply filter_strkey_NoDup. by apply no_NUL_strkey_NoDup.
    + by rewrite Hperm.
Qed.

(** X12. On a file whose words are in the strict order of [strcmp] already,
    [kDoPreSort] changes nothing of what [main] prints. *)
Theorem sorted_file_presort (kDoDebug : bool) (lines : list word) :
  StronglySorted sizeHashSortFunction (cleaned lines) →
  main kDoDebug true lines = main kDoDebug false lines.
Proof.
  intros Hsorted.
  assert (NoDup (cleaned lines)) as Hnd.
  { apply sorted_strkey_NoDup in Hsorted. by apply NoDup_fmap_1 in Hsorted. }
  pose proof (hashStringFile_result lines Hnd) as (Hok & Hout & Hset & Hmap & _).
  unfold main. rewrite Hok. rewrite !scan_as_fold.
  rewrite (traversal_eq true false _ (hashed_sizeHash (hashStringFile lines)));
    [done|done|].
  intros key. simpl. rewrite Hmap. apply sortBucket_of_sorted.
  by apply filter_strongly_sorted.
Qed.
End ScanPass.

(** ** More on the search *)

Section SearchFacts.
Context (stringSet : gset word).

Lemma shrinkLoop_quiet self (w : word) (sublen remlen : nat) b lines :
  (∀ r b' sub, self r = Some (b', sub) → sub = []) →
  shrinkLoop false stringSet self w sublen remlen = Some (b, lines) →
  lines = [].
Proof.
  intros Hself. revert remlen b lines.
  induction sublen as [|sublen IH]; intros remlen b lines; simpl.
  - by intros [= _ <-].
  - destruct (contains stringSet (substr w 0 (S sublen))).
    2:{ destruct (shrinkLoop false stringSet self w sublen (S remlen))
          as [[b' rest]|] eqn:Hrest; [|done].
        intros [= _ <-]. by apply IH in Hrest. }
    destruct (contains stringSet (substr w (S sublen) remlen)).
    { by intros [= _ <-]. }
    destruct (self (substr w (S sublen) remlen)) as [[[] sub]|] eqn:Hcall;
      [| |done].
    + by intros [= _ <-].
    + destruct (shrinkLoop false stringSet self w sublen (S remlen))
        as [[b' rest]|] eqn:Hrest; [|done].
      intros [= _ <-]. by apply IH in Hrest.
Qed.

Lemma depth_quiet (depth : nat) (w : word) b lines :
  wordIsMadeOfOtherWords_depth depth false stringSet w = Some (b, lines) →
  lines = [].
Proof.
  revert w b lines. induction depth as [|depth IH]; intros w b lines; [done|].
  simpl. apply shrinkLoop_quiet. intros r b' sub. apply IH.
Qed.

Lemma wordIsMadeOfOtherWords_quiet (w : word) :
  (wordIsMadeOfOtherWords false stringSet w).2 = [].
Proof.
  pose proof (wordIsMadeOfOtherWords_depth_eq stringSet false w) as Heq.
  destruct (wordIsMadeOfOtherWords false stringSet w) as [b lines].
  by apply depth_quiet in Heq.
Qed.

Lemma tryWord_quiet (st : Scan) (w : word) :
  scan_out st = [] → scan_out (tryWord false stringSet st w) = [].
Proof.
  intros Hout. unfold tryWord. rewrite wordIsMadeOfOtherWords_quiet.
  destruct (wordIsMadeOfOtherWords false stringSet w).1; simpl.
  - destruct (secondFound st), (firstFound st); simpl; by rewrite Hout.
  - by rewrite Hout.
Qed.

Lemma scan_quiet (kDoPreSort : bool) (sizeHash : gmap nat (list word)) :
  scan_out (findLongestWordsOfWords false kDoPreSort stringSet sizeHash) = [].
Proof.
  rewrite scan_as_fold.
  assert (scan_out scan_start = []) as Hstart by done.
  revert Hstart. generalize scan_start.
  induction (traversal kDoPreSort sizeHash) as [|w l IH]; intros st Hst; [done|].
  simpl. by apply IH, tryWord_quiet.
Qed.

Lemma composed_app (u v : word) :
  u ≠ [] → v ≠ [] →
  u ∈ stringSet ∨ composed stringSet u →
  v ∈ stringSet ∨ composed stringSet v →
  composed stringSet (u ++ v).
Proof.
  intros Hu Hv Hu' Hv'.
  assert (0 < length u) by (destruct u; [done | simpl; lia]).
  assert (0 < length v) by (destruct v; [done | simpl; lia]).
  assert (∃ ps, 1 ≤ length ps
                ∧ Forall (λ p, p ∈ stringSet ∧ length p ≤ length u) ps
                ∧ concat ps = u) as (ps & Hps1 & Hps2 & Hps3).
  { destruct Hu' as [Hin|(ps & ? & Hall & ?)].
    - exists [u]. split; [simpl; lia|]. split; [by repeat constructor|].
      simpl. by rewrite app_nil_r.
    - exists ps. split; [lia|]. split; [|done].
      eapply Forall_impl; [done|]. intros p [? ?]. split; [done | lia]. }
  assert (∃ qs, 1 ≤ length qs
                ∧ Forall (λ p, p ∈ stringSet ∧ length p ≤ length v) qs
                ∧ concat qs = v) as (qs & Hqs1 & Hqs2 & Hqs3).
  { destruct Hv' as [Hin|(qs & ? & Hall & ?)].
    - exists [v]. split; [simpl; lia|]. split; [by repeat constructor|].
      simpl. by rewrite app_nil_r.
    - exists qs. split; [lia|]. split; [|done].
      eapply Forall_impl; [done|]. intros p [? ?]. split; [done | lia]. }
  exists (ps ++ qs). split; [rewrite length_app; lia|]. split.
  - rewrite length_app. apply Forall_app. split.
    + eapply Forall_impl; [exact Hps2|]. intros p [? ?]. split; [done | lia].
    + eapply Forall_impl; [exact Hqs2|]. intros p [? ?]. split; [done | lia].
  - by rewrite concat_app, Hps3, Hqs3.
Qed.

Lemma composed_short_piece (w : word) :
  composed stringSet w →
  ∃ p, p ∈ stringSet ∧ p ≠ [] ∧ 2 * length p ≤ length w.
Proof.
  intros (p1 & p2 & rest & Hall & ->)%composed_nonempty.
  inversion Hall as [|? ? [Hp1 Hn1] Hall']; subst.
  inversion Hall' as [|? ? [Hp2 Hn2] _]; subst.
  rewrite !length_app.
  destruct (decide (length p1 ≤ length p2)).
  - exists p1. split; [done|]. split; [done | lia].
  - exists p2. split; [done|]. split; [done | lia].
Qed.
End SearchFacts.

(** ** The longest words come first *)

Section LongestFirst.
Context (stringSet : gset word) (sizeHash : gmap nat (list word)).
Context (Hinv : store_inv sizeHash stringSet).

Lemma same_length_sorted (len : nat) (l : list word) :
  Forall (λ w, length w = len) l → StronglySorted notLonger l.
Proof.
  induction 1 as [|x l Hx Hall IH]; constructor; [done|].
  eapply Forall_impl; [done|]. intros y Hy. unfold notLonger. simpl in *. lia.
Qed.

Lemma traversal_sorted (kDoPreSort : bool) :
  StronglySorted notLonger (traversal kDoPreSort sizeHash).
Proof.
  unfold traversal.
  pose proof (extract_keys_decreasing kDoPreSort sizeHash) as Hkeys.
  assert (∀ key w, w ∈ bucketOrder kDoPreSort (sizeHash !!! key) →
                   length w = key) as Hlen.
  { intros key w. rewrite bucketOrder_perm. apply (inv_length _ _ Hinv). }
  induction Hkeys as [|key keys _ IH Hall]; [constructor|]. csimpl.
  apply StronglySorted_app. split; [|split; [|done]].
  - intros a b Ha (key' & Hb & Hkey')%list_elem_of_bind.
    apply Hlen in Ha, Hb. rewrite Forall_forall in Hall. apply Hall in Hkey'.
    unfold notLonger. lia.
  - apply (same_length_sorted key). apply Forall_forall. intros w. apply Hlen.
Qed.

Lemma hits_sorted (kDoPreSort : bool) :
  let hits := filter (λ w, made stringSet w = true) (traversal kDoPreSort sizeHash) in
  StronglySorted notLonger hits ∧ NoDup hits
  ∧ ∀ w, w ∈ hits ↔ w ∈ stringSet ∧ made stringSet w = true.
Proof.
  cbv zeta. pose proof (traversal_members kDoPreSort _ _ Hinv) as Hperm.
  split; [apply filter_strongly_sorted, traversal_sorted|]. split.
  - apply NoDup_filter. rewrite Hperm. apply NoDup_elements.
  - intros w. rewrite list_elem_of_filter, Hperm, elem_of_elements. tauto.
Qed.
End LongestFirst.

(** ** The store, once more *)

Section StoreFacts.

Lemma hashLines_cleaned (lines : list word) (sizeHash : gmap nat (list word))
    (stringSet : gset word) :
  hashLines lines sizeHash stringSet = hashWords (cleaned lines) sizeHash stringSet.
Proof.
  revert sizeHash stringSet.
  induction lines as [|line lines IH]; intros sizeHash stringSet; [done|].
  rewrite cleaned_cons. cbn [hashLines].
  destruct (0 <? length (cleanWord line)); [|apply IH].
  cbn [hashWords]. destruct (set_insert stringSet (cleanWord line)).2; [apply IH|done].
Qed.

Lemma hashWords_stops (words : list word) (sizeHash : gmap nat (list word))
    (stringSet : gset word) :
  hashed_ok (hashWords words sizeHash stringSet) = false →
  ∃ pre w post,
    words = pre ++ w :: post
    ∧ NoDup pre ∧ (∀ x, x ∈ pre → x ∉ stringSet)
    ∧ (w ∈ pre ∨ w ∈ stringSet)
    ∧ hashed_stringSet (hashWords words sizeHash stringSet)
      = list_to_set pre ∪ stringSet
    ∧ ∀ len, hashed_sizeHash (hashWords words sizeHash stringSet) !!! len
             = sizeHash !!! len ++ filter (λ x, length x = len) pre.
Proof.
  revert sizeHash stringSet.
  induction words as [|w words IH]; intros sizeHash stringSet; [done|].
  cbn [hashWords].
  destruct (decide (w ∈ stringSet)) as [Hin|Hin].
  - rewrite set_insert_present by done. simpl. intros _.
    exists [], w, words. split; [done|]. split; [constructor|].
    split; [by intros ? ?%elem_of_nil|]. split; [by right|].
    split; [set_solver|]. intros len. by rewrite app_nil_r.
  - rewrite set_insert_absent by done. simpl.
    intros (pre & w' & post & -> & Hnd & Hnew & Hw' & Hset & Hmap)%IH.
    exists (w :: pre), w', post. split; [done|]. split.
    { constructor; [|done]. intros Hw. apply Hnew in Hw. set_solver. }
    split.
    { intros x [->|Hx]%elem_of_cons; [done|]. apply Hnew in Hx. set_solver. }
    split.
    { destruct Hw' as [?|[->%elem_of_singleton|?]%elem_of_union];
        [left; by right | left; by left | by right]. }
    split; [rewrite Hset; set_solver|].
    intros len. rewrite Hmap, push_back_lookup.
    destruct (decide (len = length w)) as [->|Hne].
    + rewrite filter_cons_True by done. by rewrite <- app_assoc.
    + by rewrite filter_cons_False by done.
Qed.
End StoreFacts.

(** C2, as the code has it.  Inserting a word that the set already holds
    leaves the set as it is and reports that no insertion took place;
    [hashStringFile] takes this report for an error: it reads the file to
    its end exactly when no cleaned, non-empty word comes twice.  In that
    case the set holds these words and [main] prints the result of the scan.
    Otherwise [hashStringFile] stops at the first word that came before: it
    prints the error line and nothing else, returns false, and leaves the
    set and the buckets of the words read before that word; [main] then
    prints the error line and no result. *)
Theorem hashStringFile_duplicates (kDoDebug kDoPreSort : bool) (lines : list word) :
  let h := hashStringFile lines in
  let st := findLongestWordsOfWords kDoDebug kDoPreSort
              (hashed_stringSet h) (hashed_sizeHash h) in
  (∀ w, w ∈ hashed_stringSet h →
     set_insert (hashed_stringSet h) w = (hashed_stringSet h, false))
  ∧ (hashed_ok h = true ↔ NoDup (cleaned lines))
  ∧ (NoDup (cleaned lines) →
       hashed_stringSet h = list_to_set (cleaned lines)
       ∧ main kDoDebug kDoPreSort lines = scan_out st ++ [report_of st])
  ∧ (¬ NoDup (cleaned lines) →
       main kDoDebug kDoPreSort lines = [NotInserted]
       ∧ hashed_ok h = false
       ∧ hashed_out h = [NotInserted]
       ∧ ∃ pre w post,
           cleaned lines = pre ++ w :: post ∧ NoDup pre ∧ w ∈ pre
           ∧ hashed_stringSet h = list_to_set pre
           ∧ ∀ len, hashed_sizeHash h !!! len
                    = filter (λ x, length x = len) pre).
Proof.
  simpl.
  assert (hashed_ok (hashStringFile lines) = true ↔ NoDup (cleaned lines)) as Hok.
  { unfold hashStringFile. rewrite hashLines_ok. set_solver. }
  split; [|split; [done|split]].
  - intros w. apply set_insert_present.
  - intros Hnodup. apply Hok in Hnodup. unfold main. rewrite Hnodup.
    apply hashLines_result in Hnodup as (Hset & _ & Hout).
    fold (hashStringFile lines) in Hset, Hout. rewrite Hout. split; [|done].
    rewrite Hset. set_solver.
  - intros Hdup. rewrite <- Hok in Hdup. apply not_true_is_false in Hdup.
    split; [unfold main; rewrite Hdup; by apply hashLines_failed|].
    split; [done|]. split; [by apply hashLines_failed|].
    unfold hashStringFile in *. rewrite hashLines_cleaned in *.
    apply hashWords_stops in Hdup
      as (pre & w & post & Heq & Hnd & _ & Hw & Hset & Hmap).
    exists pre, w, post. split; [done|]. split; [done|]. split.
    { destruct Hw as [?|?%not_elem_of_empty]; done. }
    split; [by rewrite Hset, union_empty_r_L|].
    intros len. by rewrite Hmap, lookup_total_empty.
Qed.

Lemma hashStringFile_duplicates_witness :
  main false false catLines = [NotInserted]
  ∧ hashed_stringSet (hashStringFile catLines) = list_to_set (map str ["cat"; "dog"]%string).
Proof.
  split; [|by vm_compute].
  refine (proj1 (proj2 (proj2 (proj2 (hashStringFile_duplicates false false catLines))) _)).
  vm_compute. intros Hdup. inversion Hdup as [|? ? Hnot _].
  apply Hnot. apply elem_of_cons. right. apply elem_of_cons. by left.
Defined.

(** C2, as the specification has it, fails: a file where a word comes twice once
    cleaned is not read to its end, and no result of a scan is printed. *)
Lemma duplicate_word_aborts :
  cleaned catLines = map str ["cat"; "dog"; "cat"]%string
  ∧ hashed_ok (hashStringFile catLines) = false
  ∧ main false false catLines = [NotInserted].
Proof. vm_compute. done. Qed.

(** ** The words found *)

Section Found.
Context (stringSet : gset word) (sizeHash : gmap nat (list word)).
Context (Hinv : store_inv sizeHash stringSet).

Lemma found_words (kDoDebug kDoPreSort : bool) :
  let st := findLongestWordsOfWords kDoDebug kDoPreSort stringSet sizeHash in
  ∃ hits,
    StronglySorted notLonger hits ∧ NoDup hits
    ∧ (∀ w, w ∈ hits ↔ w ∈ stringSet ∧ made stringSet w = true)
    ∧ firstWord st = default [] (hits !! 0)
    ∧ secondWord st = default [] (hits !! 1)
    ∧ countFound st = length hits.
Proof.
  cbv zeta.
  destruct (hits_sorted stringSet sizeHash Hinv kDoPreSort) as (Hs & Hnd & Hin).
  destruct (scan_fields stringSet kDoDebug kDoPreSort sizeHash) as (H1 & H2 & H3).
  eexists. split; [exact Hs|]. split; [exact Hnd|]. split; [exact Hin|]. done.
Qed.
End Found.

Lemma cleanWord_trimmed (s : word) :
  no_outer_space (cleanWord s)
  ∧ Forall (λ c, isUpper c = false) (cleanWord s)
  ∧ length (cleanWord s) ≤ length s.
Proof.
  destruct (cleanWord_split s) as (a & b & core & eols & -> & H1 & [H2 H2'] & H3).
  rewrite cleanWord_app by done. unfold toLowerString, no_outer_space.
  change (map tolower core) with (tolower <$> core).
  split; [split|split].
  - destruct core as [|c core]; [done|]. simpl. intros Heq. apply H2. simpl.
    injection Heq as Hc. apply (proj1 (tolower_space _)) in Hc. by rewrite Hc.
  - rewrite fmap_last. destruct (last core) as [c|]; [|done]. simpl.
    intros Heq. apply H2'. injection Heq as Hc. apply (proj1 (tolower_space _)) in Hc.
    by rewrite Hc.
  - apply Forall_forall. intros c (x & -> & _)%list_elem_of_fmap.
    apply tolower_not_upper.
  - rewrite length_fmap, !length_app. lia.
Qed.

(** * Further properties of the program *)

(** ** Cleaning a line *)

(** X1. [trimEndOfLine] removes the line feeds and carriage returns at the
    end of the string, all of them and nothing else. *)
Theorem trimEndOfLine_strips (s : word) :
  ∃ eols, s = trimEndOfLine s ++ eols
          ∧ Forall (λ c, isEndOfLine c = true) eols
          ∧ no_final_eol (trimEndOfLine s).
Proof. apply trimEndOfLine_split. Qed.

(** X2. [trimLeadingWhitespace] removes the spaces at the start of the
    string, all of them and nothing else. *)
Theorem trimLeadingWhitespace_strips (s : word) :
  ∃ n, s = spaces n ++ trimLeadingWhitespace s
       ∧ head (trimLeadingWhitespace s) ≠ Some " "%char.
Proof.
  destruct (leading_spaces_split s) as (n & rest & -> & Hrest).
  exists n. by rewrite trimLeadingWhitespace_app.
Qed.

(** X3. [trimTrailingWhitespace] removes the spaces at the end of a string
    that has another character; of a string of spaces only it leaves one
    space. *)
Theorem trimTrailingWhitespace_strips (core : word) (n : nat) :
  (core ≠ [] → last core ≠ Some " "%char →
   trimTrailingWhitespace (core ++ spaces n) = core)
  ∧ trimTrailingWhitespace (spaces (S n)) = [" "%char]
  ∧ trimTrailingWhitespace [] = [].
Proof.
  split; [apply trimTrailingWhitespace_app|].
  split; [apply trimTrailingWhitespace_spaces | done].
Qed.

Lemma trimTrailingWhitespace_strips_witness :
  trimTrailingWhitespace (str "a b" ++ spaces 3) = str "a b".
Proof.
  apply (proj1 (trimTrailingWhitespace_strips (str "a b") 3)); by vm_compute.
Defined.

(** X4. Every line is a word with spaces before it, spaces after it and
    line ends after these, where the word neither starts nor ends with a
    space; [cleanWord] returns this word in lower case. *)
Theorem cleanWord_core (s : word) :
  ∃ a b core eols,
    s = spaces a ++ core ++ spaces b ++ eols
    ∧ Forall (λ c, isEndOfLine c = true) eols
    ∧ no_outer_space core ∧ (b = 0 → no_final_eol core)
    ∧ cleanWord s = toLowerString core.
Proof.
  destruct (cleanWord_split s) as (a & b & core & eols & -> & H1 & H2 & H3).
  exists a, b, core, eols. split; [done|]. do 3 (split; [done|]).
  by apply cleanWord_app.
Qed.

Lemma cleanWord_core_witness :
  ∃ a b core eols,
    decoratedLine = spaces a ++ core ++ spaces b ++ eols
    ∧ Forall (λ c, isEndOfLine c = true) eols
    ∧ no_outer_space core ∧ (b = 0 → no_final_eol core)
    ∧ cleanWord decoratedLine = toLowerString core.
Proof. exact (cleanWord_core decoratedLine). Defined.

(** X5. [cleanWord] on a word with spaces around it and line ends after
    them returns the word in lower case. *)
Theorem cleanWord_decorated (a b : nat) (core eols : word) :
  Forall (λ c, isEndOfLine c = true) eols →
  no_outer_space core → (b = 0 → no_final_eol core) →
  cleanWord (spaces a ++ core ++ spaces b ++ eols) = toLowerString core.
Proof. apply cleanWord_app. Qed.

Lemma cleanWord_decorated_witness :
  cleanWord (spaces 2 ++ str "Cat" ++ spaces 2 ++ ["013"%char]) = str "cat".
Proof.
  apply (cleanWord_decorated 2 2 (str "Cat") ["013"%char]).
  - by repeat constructor.
  - by split.
  - lia.
Defined.

(** X6. The word that [cleanWord] returns neither starts nor ends with a
    space, has no upper-case letter and is not longer than the line. *)
Theorem cleanWord_shape (s : word) :
  no_outer_space (cleanWord s)
  ∧ Forall (λ c, isUpper c = false) (cleanWord s)
  ∧ length (cleanWord s) ≤ length s.
Proof. apply cleanWord_trimmed. Qed.

(** X7. Cleaning a second time changes the word exactly when the word
    still ends with a line feed or a carriage return. *)
Theorem cleanWord_fixed (s : word) :
  cleanWord (cleanWord s) = cleanWord s ↔ no_final_eol (cleanWord s).
Proof.
  split.
  - intros Hfix.
    destruct (cleanWord_split (cleanWord s)) as (a & b & core & eols & Hs & H1 & H2 & H3).
    pose proof (cleanWord_app a b core eols H1 H2 H3) as Hclean.
    rewrite <- Hs, Hfix in Hclean.
    assert (length (cleanWord s) = length core) as Hlen
      by (rewrite Hclean at 1; apply length_map).
    rewrite Hs, !length_app, !length_spaces in Hlen.
    assert (a = 0) as -> by lia. assert (b = 0) as Hb by lia.
    assert (eols = []) as -> by (apply nil_length_inv; lia). subst b.
    rewrite Hs. simpl. rewrite app_nil_r. by apply H3.
  - intros Hend.
    destruct (cleanWord_trimmed s) as (Hspace & _ & _).
    pose proof (cleanWord_app 0 0 (cleanWord s) [] ltac:(constructor)
                  Hspace (λ _, Hend)) as Hclean.
    simpl in Hclean. rewrite app_nil_r in Hclean. rewrite Hclean.
    unfold cleanWord at 2. apply toLowerString_idemp.
Qed.

Lemma cleanWord_fixed_witness :
  ¬ no_final_eol (cleanWord eolInside).
Proof.
  intros Hend.
  apply (proj2 (cleanWord_fixed eolInside)) in Hend. by vm_compute in Hend.
Defined.

(** X8. [toLowerString] keeps the length, leaves no upper-case letter,
    changes no string without one, and changes nothing when applied again. *)
Theorem toLowerString_folds (s : word) :
  length (toLowerString s) = length s
  ∧ Forall (λ c, isUpper c = false) (toLowerString s)
  ∧ (Forall (λ c, isUpper c = false) s → toLowerString s = s)
  ∧ toLowerString (toLowerString s) = toLowerString s.
Proof.
  split; [apply length_map|]. split; [|split].
  - unfold toLowerString. change (map tolower s) with (tolower <$> s).
    apply Forall_forall. intros c (x & -> & _)%list_elem_of_fmap.
    apply tolower_not_upper.
  - unfold toLowerString. induction 1 as [|c s' Hc _ IH]; [done|].
    simpl. by rewrite IH, tolower_other.
  - apply toLowerString_idemp.
Qed.

Lemma toLowerString_folds_witness : toLowerString (str "cat") = str "cat".
Proof.
  apply (proj1 (proj2 (proj2 (toLowerString_folds (str "cat"))))).
  by repeat constructor.
Defined.

(** ** The order of the sort *)



(** X10. [extractAndSortKeysFromSizeHash] returns the keys of the map in
    strictly increasing order and keeps the words of every bucket; without
    [kDoPreSort] the map is unchanged, with it every bucket whose words
    differ before their first NUL character is in the order of [strcmp]. *)
Theorem extract_sorted (kDoPreSort : bool) (sizeHash : gmap nat (list word)) :
  let r := extractAndSortKeysFromSizeHash kDoPreSort sizeHash in
  StronglySorted lt r.1
  ∧ (∀ key, key ∈ r.1 ↔ is_Some (sizeHash !! key))
  ∧ (∀ key, r.2 !!! key ≡ₚ sizeHash !!! key)
  ∧ (kDoPreSort = false → r.2 = sizeHash)
  ∧ (kDoPreSort = true →
     ∀ key, NoDup (strkey <$> sizeHash !!! key) →
            StronglySorted notAfter (r.2 !!! key)).
Proof.
  cbv zeta. split; [|split; [|split; [|split]]].
  - apply strictly_increasing.
    + apply (Sorted_merge_sort le).
    + rewrite extract_keys_perm. apply NoDup_fst_map_to_list.
  - intros key. by rewrite extract_keys_dom, elem_of_dom.
  - intros key. rewrite extract_bucket. apply bucketOrder_perm.
  - by intros ->.
  - intros -> key Hnd. rewrite extract_bucket. by apply sortBucket_sorted.
Qed.

Lemma extract_sorted_witness :
  StronglySorted notAfter
    ((extractAndSortKeysFromSizeHash true
        (hashed_sizeHash (hashStringFile baLines))).2 !!! 4).
Proof.
  apply (proj2 (proj2 (proj2 (proj2 (extract_sorted true
           (hashed_sizeHash (hashStringFile baLines))))))); [done|].
  apply (bool_decide_unpack _). by vm_compute.
Defined.

Lemma presort_file_order_witness :
  main false true abLines = main false true baLines.
Proof.
  apply presort_file_order.
  - apply (bool_decide_unpack _). by vm_compute.
  - apply (bool_decide_unpack _). by vm_compute.
  - change (map str ["a"; "b"; "ab"; "abab"; "baab"]%string
            ≡ₚ map str ["b"; "a"; "baab"; "ab"; "abab"]%string).
    cbn [map]. etrans; [apply perm_swap|]. apply perm_skip, perm_skip.
    symmetry. apply (Permutation_cons_append [str "ab"; str "abab"]).
Defined.

Lemma sorted_file_presort_witness :
  main false true sortedLines = main false false sortedLines.
Proof.
  apply sorted_file_presort. apply (bool_decide_unpack _). by vm_compute.
Defined.

(** ** The store *)

(** X13. From a file where no word comes twice [hashStringFile] returns
    true, prints nothing, and leaves the set of the words and, for each
    length, the words of that length in the order of the file. *)
Theorem hashStringFile_buckets (lines : list word) :
  NoDup (cleaned lines) →
  let h := hashStringFile lines in
  hashed_ok h = true ∧ hashed_out h = []
  ∧ hashed_stringSet h = list_to_set (cleaned lines)
  ∧ ∀ len, hashed_sizeHash h !!! len
           = filter (λ w, length w = len) (cleaned lines).
Proof.
  intros (H1 & H2 & H3 & H4 & _)%hashStringFile_result. done.
Qed.

Lemma hashStringFile_buckets_witness :
  hashed_sizeHash (hashStringFile baLines) !!! 4 = map str ["baab"; "abab"]%string.
Proof.
  apply (proj2 (proj2 (proj2 (hashStringFile_buckets baLines
           ltac:(apply (bool_decide_unpack _); by vm_compute))))).
Defined.

(** X14. From a file where a word comes twice [hashStringFile] returns
    false at the first word seen before, and leaves the store of the words
    before it. *)
Theorem hashStringFile_stops (lines : list word) :
  ¬ NoDup (cleaned lines) →
  let h := hashStringFile lines in
  hashed_ok h = false
  ∧ ∃ pre w post,
      cleaned lines = pre ++ w :: post ∧ NoDup pre ∧ w ∈ pre
      ∧ hashed_stringSet h = list_to_set pre
      ∧ ∀ len, hashed_sizeHash h !!! len = filter (λ x, length x = len) pre.
Proof.
  intros Hdup. cbv zeta.
  assert (hashed_ok (hashStringFile lines) = false) as Hok.
  { apply not_true_is_false. unfold hashStringFile. rewrite hashLines_ok.
    by intros [? _]. }
  split; [done|]. unfold hashStringFile in *. rewrite hashLines_cleaned in *.
  apply hashWords_stops in Hok
    as (pre & w & post & Heq & Hnd & _ & Hw & Hset & Hmap).
  exists pre, w, post. split; [done|]. split; [done|]. split.
  { destruct Hw as [?|?%not_elem_of_empty]; done. }
  split; [by rewrite Hset, union_empty_r_L|].
  intros len. by rewrite Hmap, lookup_total_empty.
Qed.

Lemma hashStringFile_stops_witness :
  hashed_ok (hashStringFile catLines) = false.
Proof.
  apply (hashStringFile_stops catLines).
  intros Hnd. apply (bool_decide_pack _) in Hnd. by vm_compute in Hnd.
Defined.

(** X15. [hashStringFile] depends on the cleaned, non-empty words of the
    file only: lines that are empty once cleaned are skipped, and two files
    with the same cleaned words leave the same store. *)
Theorem hashStringFile_cleaned (lines lines' : list word) :
  cleaned lines = cleaned lines' → hashStringFile lines = hashStringFile lines'.
Proof.
  intros Heq. unfold hashStringFile. by rewrite !hashLines_cleaned, Heq.
Qed.

Lemma hashStringFile_cleaned_witness :
  hashStringFile (map str ["cat"; "dog"]%string)
  = hashStringFile (map str [" Cat"; "   "; ""; "DOG  "]%string).
Proof. apply hashStringFile_cleaned. reflexivity. Defined.

(** ** The search and the scan *)

(** X16. A word made of other words of a set is made of other words of
    every larger set. *)
Theorem made_mono (stringSet stringSet' : gset word) (w : word) :
  stringSet ⊆ stringSet' →
  made stringSet w = true → made stringSet' w = true.
Proof.
  intros Hsub. rewrite !made_composed. apply composed_subseteq.
  intros p _. apply Hsub.
Qed.

Lemma made_mono_witness :
  made (list_to_set (str "abab" :: abLines)) (str "abab") = true.
Proof.
  apply (made_mono (list_to_set abLines)); [set_solver | reflexivity].
Defined.

(** X17. Two non-empty strings, each a member of the set or made of other
    words, put one after the other give a word made of other words. *)
Theorem made_concat (stringSet : gset word) (u v : word) :
  u ≠ [] → v ≠ [] →
  u ∈ stringSet ∨ made stringSet u = true →
  v ∈ stringSet ∨ made stringSet v = true →
  made stringSet (u ++ v) = true.
Proof.
  rewrite !made_composed. apply composed_app.
Qed.

Lemma made_concat_witness :
  made (list_to_set abLines) (str "abab" ++ str "b") = true.
Proof.
  apply made_concat; [done | done | right; reflexivity | left].
  apply (bool_decide_unpack _). by vm_compute.
Defined.

(** X18. A word made of other words has a non-empty member of the set at
    most half as long as itself; so a word of one character, and a word
    shorter than twice the shortest member, is not made of other words. *)
Theorem made_short_piece (stringSet : gset word) (w : word) :
  made stringSet w = true →
  2 ≤ length w ∧ ∃ p, p ∈ stringSet ∧ p ≠ [] ∧ 2 * length p ≤ length w.
Proof.
  intros Hw. split; [by eapply made_length|].
  apply composed_short_piece. by apply made_composed.
Qed.

Lemma made_short_piece_witness :
  2 ≤ length (str "abab")
  ∧ ∃ p, p ∈ (list_to_set abLines : gset word) ∧ p ≠ []
         ∧ 2 * length p ≤ length (str "abab").
Proof. apply made_short_piece. reflexivity. Defined.

(** X19. [kDoDebug] changes nothing but the lines printed: the search and
    the scan print nothing without it and find the same with it, and the
    lines that [main] prints with it end with the one line it prints
    without it. *)
Theorem debug_changes_nothing (kDoPreSort : bool) (stringSet : gset word)
    (sizeHash : gmap nat (list word)) (w : word) (lines : list word) :
  (wordIsMadeOfOtherWords true stringSet w).1
  = (wordIsMadeOfOtherWords false stringSet w).1
  ∧ (wordIsMadeOfOtherWords false stringSet w).2 = []
  ∧ outcome (findLongestWordsOfWords true kDoPreSort stringSet sizeHash)
    = outcome (findLongestWordsOfWords false kDoPreSort stringSet sizeHash)
  ∧ scan_out (findLongestWordsOfWords false kDoPreSort stringSet sizeHash) = []
  ∧ length (main false kDoPreSort lines) = 1
  ∧ ∃ debugLines,
      main true kDoPreSort lines = debugLines ++ main false kDoPreSort lines.
Proof.
  split; [by rewrite !made_debug|]. split; [apply wordIsMadeOfOtherWords_quiet|].
  split; [by rewrite !scan_outcome|]. split; [apply scan_quiet|].
  unfold main. destruct (hashed_ok (hashStringFile lines)) eqn:Hok.
  - pose proof (hashLines_result lines ∅ ∅ Hok) as (_ & _ & Hout).
    fold (hashStringFile lines) in Hout. rewrite Hout, scan_quiet. simpl.
    split; [done|]. eexists. f_equal.
    pose proof (scan_outcome true kDoPreSort
                  (hashed_stringSet (hashStringFile lines))
                  (hashed_sizeHash (hashStringFile lines))) as H1.
    pose proof (scan_outcome false kDoPreSort
                  (hashed_stringSet (hashStringFile lines))
                  (hashed_sizeHash (hashStringFile lines))) as H2.
    rewrite <- H2 in H1. unfold outcome in H1. by injection H1 as -> -> _ _ ->.
  - pose proof (hashLines_failed lines ∅ ∅ Hok) as Hout.
    fold (hashStringFile lines) in Hout. rewrite Hout.
    split; [done|]. by exists [].
Qed.

(** X20. In a store that satisfies the invariant no word made of other
    words is longer than [firstWord], and none but [firstWord] is longer
    than [secondWord]. *)
Theorem longest_first (kDoDebug kDoPreSort : bool) (stringSet : gset word)
    (sizeHash : gmap nat (list word)) (w : word) :
  store_inv sizeHash stringSet →
  w ∈ stringSet → made stringSet w = true →
  let st := findLongestWordsOfWords kDoDebug kDoPreSort stringSet sizeHash in
  length w ≤ length (firstWord st)
  ∧ (w ≠ firstWord st → length w ≤ length (secondWord st)).
Proof.
  intros Hinv Hw Hmade. cbv zeta.
  destruct (found_words stringSet sizeHash Hinv kDoDebug kDoPreSort)
    as (hits & Hs & Hnd & Hin & -> & -> & _).
  assert (w ∈ hits) as Hhit by (by apply Hin).
  destruct Hs as [|h0 hits Hs Hall]; [by apply elem_of_nil in Hhit|].
  rewrite Forall_forall in Hall. simpl.
  apply elem_of_cons in Hhit as [->|Hhit]; [done|].
  split; [by apply Hall|]. intros _.
  destruct Hs as [|h1 hits Hs Hall']; [by apply elem_of_nil in Hhit|].
  rewrite Forall_forall in Hall'. simpl.
  apply elem_of_cons in Hhit as [->|Hhit]; [done|]. by apply Hall'.
Qed.

Lemma longest_first_witness :
  length (str "abab")
  ≤ length (firstWord (findLongestWordsOfWords false false
                         (hashed_stringSet (hashStringFile baLines))
                         (hashed_sizeHash (hashStringFile baLines)))).
Proof.
  refine (proj1 (longest_first false false _ _ (str "abab")
                   (hashLines_inv baLines ∅ ∅ store_inv_empty) _ _)).
  - apply (bool_decide_unpack _). by vm_compute.
  - reflexivity.
Defined.

(** X21. In a store that satisfies the invariant the words reported are
    members of the set made of other words, and the second is another word
    than the first and not longer. *)
Theorem reported_words (kDoDebug kDoPreSort : bool) (stringSet : gset word)
    (sizeHash : gmap nat (list word)) :
  store_inv sizeHash stringSet →
  let st := findLongestWordsOfWords kDoDebug kDoPreSort stringSet sizeHash in
  (1 ≤ countFound st →
   firstWord st ∈ stringSet ∧ made stringSet (firstWord st) = true)
  ∧ (2 ≤ countFound st →
     secondWord st ∈ stringSet ∧ made stringSet (secondWord st) = true
     ∧ secondWord st ≠ firstWord st
     ∧ length (secondWord st) ≤ length (firstWord st)).
Proof.
  intros Hinv. cbv zeta.
  destruct (found_words stringSet sizeHash Hinv kDoDebug kDoPreSort)
    as (hits & Hs & Hnd & Hin & -> & -> & ->).
  destruct hits as [|h0 [|h1 hits]]; simpl.
  - split; intros ?; lia.
  - split; [intros _|intros ?; lia]. apply Hin. by left.
  - split; intros _.
    + apply Hin. by left.
    + assert (h1 ∈ stringSet ∧ made stringSet h1 = true) as [? ?]
        by (apply Hin; right; by left).
      split; [done|]. split; [done|].
      apply NoDup_cons in Hnd as [Hh0 _].
      apply StronglySorted_cons in Hs as [Hall _].
      rewrite Forall_forall in Hall. split.
      * intros ->. apply Hh0. by left.
      * apply Hall. by left.
Qed.

Lemma reported_words_witness :
  secondWord (findLongestWordsOfWords false false
                (hashed_stringSet (hashStringFile baLines))
                (hashed_sizeHash (hashStringFile baLines)))
  ≠ firstWord (findLongestWordsOfWords false false
                 (hashed_stringSet (hashStringFile baLines))
                 (hashed_sizeHash (hashStringFile baLines))).
Proof.
  refine (proj1 (proj2 (proj2 (proj2 (reported_words false false _ _
                  (hashLines_inv baLines ∅ ∅ store_inv_empty)) _)))).
  vm_compute. lia.
Defined.

(** ** The arguments *)

Section Arguments.
Context (argv : list word).

Lemma flag_cons (c x : ascii) (options : list ascii) :
  bool_decide (c ∈ x :: options)
  = bool_decide (c = x) || bool_decide (c ∈ options).
Proof.
  destruct (decide (c = x)) as [->|Hne].
  - rewrite (bool_decide_eq_true_2 (x = x)) by done. simpl.
    apply bool_decide_eq_true_2. by left.
  - rewrite (bool_decide_eq_false_2 (c = x)) by done. simpl.
    apply bool_decide_ext. rewrite elem_of_cons. naive_solver.
Qed.

Lemma flag_nil (c : ascii) : bool_decide (c ∈ @nil ascii) = false.
Proof. apply bool_decide_eq_false_2. by intros ?%elem_of_nil. Qed.

Lemma parseOptions_ok (options : list ascii) (d0 s0 d s : bool) :
  parseOptions argv options d0 s0 = inr (d, s)
  ↔ Forall (λ c, c = "d"%char ∨ c = "s"%char) options
    ∧ d = d0 || bool_decide ("d"%char ∈ options)
    ∧ s = s0 || bool_decide ("s"%char ∈ options).
Proof.
  revert d0 s0. induction options as [|c options IH]; intros d0 s0;
    cbn [parseOptions].
  - rewrite !flag_nil, !orb_false_r. split.
    + by intros [= -> ->].
    + by intros (_ & -> & ->).
  - rewrite Forall_cons, !flag_cons.
    destruct (decide (c = "h"%char)) as [->|Hh].
    { rewrite bool_decide_eq_true_2 by done. split; [done|].
      by intros ([[[=]|[=]] _] & _). }
    rewrite (bool_decide_eq_false_2 (c = "h"%char)) by done.
    destruct (decide (c = "d"%char)) as [->|Hd].
    { rewrite !(bool_decide_eq_true_2 ("d"%char = "d"%char)) by done.
      rewrite (bool_decide_eq_false_2 ("s"%char = "d"%char)) by done.
      rewrite IH. simpl. rewrite !orb_true_r. naive_solver. }
    rewrite (bool_decide_eq_false_2 (c = "d"%char)) by done.
    rewrite (bool_decide_eq_false_2 ("d"%char = c)) by done.
    rewrite orb_false_l.
    destruct (decide (c = "s"%char)) as [->|Hs].
    { rewrite !(bool_decide_eq_true_2 ("s"%char = "s"%char)) by done.
      rewrite IH. simpl. rewrite !orb_true_r. naive_solver. }
    rewrite (bool_decide_eq_false_2 (c = "s"%char)) by done.
    split; [done|]. naive_solver.
Qed.

Lemma parseOptions_exit (options : list ascii) (d0 s0 : bool) out :
  parseOptions argv options d0 s0 = inl out →
  ∃ errs, out = errs ++ printUsage argv ∧ length errs ≤ 1.
Proof.
  revert d0 s0. induction options as [|c options IH]; intros d0 s0;
    cbn [parseOptions]; [done|].
  destruct (bool_decide (c = "h"%char)).
  { intros [= <-]. exists []. split; [done | simpl; lia]. }
  destruct (bool_decide (c = "d"%char)); [apply IH|].
  destruct (bool_decide (c = "s"%char)); [apply IH|].
  intros [= <-]. exists [InvalidOption c]. split; [done | simpl; lia].
Qed.

Lemma parseWords_exit (words : list word) (d0 s0 : bool) (f0 : word) out :
  parseWords argv words d0 s0 f0 = Exit out →
  ∃ errs, out = errs ++ printUsage argv ∧ length errs ≤ 1.
Proof.
  revert d0 s0 f0. induction words as [|argstr words IH]; intros d0 s0 f0;
    cbn [parseWords]; [done|].
  destruct (isOption argstr).
  - destruct (length argstr =? 1).
    { intros [= <-]. exists []. split; [done | simpl; lia]. }
    destruct (parseOptions argv (drop 1 argstr) d0 s0) as [out'|flags] eqn:Hopt.
    + intros [= <-]. by eapply parseOptions_exit.
    + apply IH.
  - destruct (0 <? length f0); [|apply IH].
    intros [= <-]. exists [TooManyFiles]. split; [done | simpl; lia].
Qed.

Lemma hasFlag_nil (c : ascii) : hasFlag c [] = false.
Proof. apply bool_decide_eq_false_2. by intros ?%Exists_nil. Qed.

Lemma hasFlag_cons (c : ascii) (argstr : word) (words : list word) :
  hasFlag c (argstr :: words)
  = (isOption argstr && bool_decide (c ∈ drop 1 argstr)) || hasFlag c words.
Proof.
  unfold hasFlag.
  destruct (isOption argstr) eqn:Hopt; simpl.
  - destruct (decide (c ∈ drop 1 argstr)) as [Hc|Hc].
    + rewrite (bool_decide_eq_true_2 (c ∈ drop 1 argstr)) by done. simpl.
      apply bool_decide_eq_true_2. apply Exists_cons. by left.
    + rewrite (bool_decide_eq_false_2 (c ∈ drop 1 argstr)) by done. simpl.
      apply bool_decide_ext. rewrite Exists_cons.
      split; [intros [[_ ?]|?]; done | by right].
  - apply bool_decide_ext. rewrite Exists_cons.
    split; [intros [[? _]|?]; [congruence | done] | by right].
Qed.

Lemma fileNames_cons (argstr : word) (words : list word) :
  fileNames (argstr :: words)
  = if isOption argstr then fileNames words else argstr :: fileNames words.
Proof.
  unfold fileNames. destruct (isOption argstr) eqn:Hopt.
  - by rewrite filter_cons_False by (by rewrite Hopt).
  - by rewrite filter_cons_True by done.
Qed.

Lemma optionWords_cons (argstr : word) (words : list word) :
  optionWords (argstr :: words)
  = if isOption argstr then argstr :: optionWords words else optionWords words.
Proof.
  unfold optionWords. destruct (isOption argstr) eqn:Hopt.
  - by rewrite filter_cons_True by done.
  - by rewrite filter_cons_False by (by rewrite Hopt).
Qed.

(** When the loop over the words comes to its end. *)
Lemma parseWords_ok (words : list word) (d0 s0 d s : bool) (f0 f : word) :
  parseWords argv words d0 s0 f0 = Parsed d s f
  ↔ Forall validOption (optionWords words)
    ∧ d = d0 || hasFlag "d" words
    ∧ s = s0 || hasFlag "s" words
    ∧ ((fileNames words = [] ∧ f = f0)
       ∨ (f0 = [] ∧ ∃ k, fileNames words = replicate k [] ++ [f])).
Proof.
  revert d0 s0 f0. induction words as [|argstr words IH]; intros d0 s0 f0;
    cbn [parseWords].
  - rewrite !hasFlag_nil, !orb_false_r. split.
    + intros [= -> -> ->]. split; [constructor|]. auto.
    + intros (_ & -> & -> & [[_ ->]|[_ [k Hk]]]); [done|].
      by destruct k.
  - rewrite optionWords_cons, fileNames_cons, !hasFlag_cons.
    destruct (isOption argstr) eqn:Hopt; simpl.
    + rewrite Forall_cons. unfold validOption at 1.
      destruct (length argstr =? 1) eqn:Hlen.
      { apply Nat.eqb_eq in Hlen. split; [done|]. intros ([[? _] _] & _). lia. }
      apply Nat.eqb_neq in Hlen.
      assert (2 ≤ length argstr) as Hlen2.
      { unfold isOption in Hopt. apply bool_decide_eq_true in Hopt.
        destruct argstr as [|? [|? ?]]; simpl in *; try done; lia. }
      destruct (parseOptions argv (drop 1 argstr) d0 s0) as [out|[d1 s1]] eqn:Hp.
      * split; [done|]. intros ([[_ Hall] _] & _).
        assert (parseOptions argv (drop 1 argstr) d0 s0
                = inr (d0 || bool_decide ("d"%char ∈ drop 1 argstr),
                       s0 || bool_decide ("s"%char ∈ drop 1 argstr))) as Hp'
          by (by apply parseOptions_ok).
        congruence.
      * apply parseOptions_ok in Hp as (Hall & -> & ->). simpl.
        rewrite IH, !orb_assoc. naive_solver.
    + destruct (0 <? length f0) eqn:Hf0.
      * apply Nat.ltb_lt in Hf0. split; [done|].
        intros (_ & _ & _ & [[[=] _]|[-> _]]). simpl in Hf0. lia.
      * apply Nat.ltb_ge in Hf0.
        assert (f0 = []) as -> by (destruct f0; [done | simpl in Hf0; lia]).
        rewrite IH. split.
        -- intros (Hall & -> & -> & [[Hnames ->]|[-> [k Hk]]]).
           ++ split; [done|]. split; [done|]. split; [done|]. right.
              split; [done|]. exists 0. by rewrite Hnames.
           ++ split; [done|]. split; [done|]. split; [done|]. right.
              split; [done|]. exists (S k). by rewrite Hk.
        -- intros (Hall & -> & -> & [[[=] _]|[_ [k Hk]]]).
           split; [done|]. split; [done|]. split; [done|].
           destruct k as [|k]; simpl in Hk.
           ++ injection Hk as -> Hnames. by left.
           ++ injection Hk as -> Hnames. right. split; [done|]. by exists k.
Qed.
End Arguments.

Lemma hasFlag_perm (c : ascii) (words words' : list word) :
  words ≡ₚ words' → hasFlag c words = hasFlag c words'.
Proof.
  intros Hperm. apply bool_decide_ext. rewrite !Exists_exists.
  by setoid_rewrite Hperm.
Qed.

Lemma parseArguments_returns (argv : list word) (d s : bool) (f : word) :
  parseArguments argv false false [] = Parsed d s f
  ↔ 2 ≤ length argv
    ∧ Forall validOption (optionWords (drop 1 argv))
    ∧ (∃ k, fileNames (drop 1 argv) = replicate k [] ++ [f])
    ∧ f ≠ []
    ∧ d = hasFlag "d" (drop 1 argv)
    ∧ s = hasFlag "s" (drop 1 argv).
Proof.
  unfold parseArguments.
  destruct (length argv <? 2) eqn:Hlen.
  { apply Nat.ltb_lt in Hlen. split; [done|]. intros [? _]. lia. }
  apply Nat.ltb_ge in Hlen.
  destruct (parseWords argv (drop 1 argv) false false []) as [out|d' s' f'] eqn:Hp.
  - split; [done|]. intros (_ & Hall & [k Hk] & _ & -> & ->).
    assert (parseWords argv (drop 1 argv) false false []
            = Parsed (hasFlag "d" (drop 1 argv)) (hasFlag "s" (drop 1 argv)) f)
      as Hp' by (apply parseWords_ok; eauto 10).
    congruence.
  - apply parseWords_ok in Hp as (Hall & -> & -> & Hnames). simpl.
    destruct (length f' =? 0) eqn:Hf.
    + apply Nat.eqb_eq, nil_length_inv in Hf. subst f'. split; [done|].
      intros (_ & _ & [k Hk] & Hne & _).
      destruct Hnames as [[Hnil _]|[_ [k' Hk']]].
      * rewrite Hnil in Hk. by destruct k.
      * rewrite Hk in Hk'. apply (f_equal last) in Hk'.
        rewrite !last_snoc in Hk'. congruence.
    + apply Nat.eqb_neq in Hf.
      assert (f' ≠ []) as Hne by (by intros ->).
      destruct Hnames as [[_ ->]|[_ [k Hk]]]; [done|]. split.
      * intros [= <- <- <-]. simpl. eauto 10.
      * intros (_ & _ & [k' Hk'] & _ & -> & ->).
        rewrite Hk in Hk'. apply (f_equal last) in Hk'.
        rewrite !last_snoc in Hk'. simpl. congruence.
Qed.

Lemma parseArguments_exit_lines (argv : list word) (d0 s0 : bool) (f0 : word)
    (out : list usage_line) :
  parseArguments argv d0 s0 f0 = Exit out →
  ∃ errs, out = errs ++ [UsageText (argv !!! 0)] ∧ length errs ≤ 1.
Proof.
  unfold parseArguments.
  destruct (length argv <? 2).
  { intros [= <-]. exists []. split; [done | simpl; lia]. }
  destruct (parseWords argv (drop 1 argv) d0 s0 f0) as [out'|d s f] eqn:Hp.
  - intros [= <-]. by eapply parseWords_exit.
  - destruct (length f =? 0); [|done].
    intros [= <-]. exists []. split; [done | simpl; lia].
Qed.

(** X22. [parseArguments] returns exactly when there are two arguments or more,
    every option word is a dash followed by one or more of the letters d
    and s, and the other words are one non-empty file name, after empty
    words if any; [kDoDebug] and [kDoPreSort] then tell whether some option
    word has the letter d, and s. *)
Theorem parseArguments_ok (argv : list word) (d s : bool) (f : word) :
  parseArguments argv false false [] = Parsed d s f
  ↔ 2 ≤ length argv
    ∧ Forall validOption (optionWords (drop 1 argv))
    ∧ (∃ k, fileNames (drop 1 argv) = replicate k [] ++ [f])
    ∧ f ≠ []
    ∧ d = hasFlag "d" (drop 1 argv)
    ∧ s = hasFlag "s" (drop 1 argv).
Proof. apply parseArguments_returns. Qed.

Lemma parseArguments_ok_witness :
  parseArguments argvBoth false false [] = Parsed true true (str "words.txt").
Proof.
  apply (proj2 (parseArguments_ok argvBoth true true (str "words.txt"))).
  split; [simpl; lia|]. split.
  { change (optionWords (drop 1 argvBoth)) with [str "-ds"].
    constructor; [|constructor]. split; [simpl; lia|]. simpl.
    constructor; [by left|]. constructor; [by right|]. constructor. }
  split; [by exists 0|]. split; [done|]. split; by vm_compute.
Defined.

(** X23. When [parseArguments] ends the process, the last thing printed is the
    usage text with the name of the program, after one error line at most. *)
Theorem parseArguments_exit (argv : list word) (d0 s0 : bool) (f0 : word)
    (out : list usage_line) :
  parseArguments argv d0 s0 f0 = Exit out →
  ∃ errs, out = errs ++ [UsageText (argv !!! 0)] ∧ length errs ≤ 1.
Proof. apply parseArguments_exit_lines. Qed.

Lemma parseArguments_exit_witness :
  ∃ errs, [InvalidOption "x"; UsageText (str "findLongest")]
          = errs ++ [UsageText (argvBad !!! 0)] ∧ length errs ≤ 1.
Proof.
  apply (parseArguments_exit argvBad false false []). reflexivity.
Defined.

(** X24. The order of the arguments does not matter: when [parseArguments]
    returns for arguments without an empty word, it returns the same flags
    and file name for these arguments in any other order. *)
Theorem parseArguments_perm (program program' : word) (args args' : list word)
    (d s : bool) (f : word) :
  parseArguments (program :: args) false false [] = Parsed d s f →
  args ≡ₚ args' → [] ∉ args →
  parseArguments (program' :: args') false false [] = Parsed d s f.
Proof.
  rewrite !parseArguments_returns. cbn [drop length]. rewrite !drop_0.
  intros (Hlen & Hall & [k Hk] & Hne & -> & ->) Hperm Hempty.
  split; [by rewrite <- Hperm|]. split; [|split; [|split; [done|]]].
  - unfold optionWords in *. by rewrite <- Hperm.
  - exists 0. simpl. apply Permutation_singleton_r.
    unfold fileNames in *. rewrite <- Hperm, Hk.
    destruct k as [|k]; [done|]. destruct Hempty.
    assert ([] ∈ fileNames args) as Hin by (unfold fileNames; rewrite Hk; by left).
    by apply list_elem_of_filter in Hin as [_ ?].
  - split; by apply hasFlag_perm.
Qed.

Lemma parseArguments_perm_witness :
  parseArguments argvSwapped false false [] = Parsed true true (str "words.txt").
Proof.
  apply (parseArguments_perm (str "findLongest") (str "./a.out")
           (map str ["-ds"; "words.txt"]%string)).
  - reflexivity.
  - apply perm_swap.
  - apply (bool_decide_unpack _). by vm_compute.
Defined.

(** X25. A run ends with status 1 after a usage error or a file that cannot
    be opened, and then prints nothing of a scan; otherwise it ends with
    status 0, and the last line printed is the result of the scan or, for
    a file where a word comes twice, the error of the insertion. *)
Theorem run_status (files : word → option (list word)) (argv : list word) :
  let r := run files argv in
  (r.2 = 1 ∧ ((∃ errs, r.1 = Usage <$> (errs ++ [UsageText (argv !!! 0)]))
              ∨ ∃ fileName, files fileName = None ∧ r.1 = [OpenError fileName]))
  ∨ (r.2 = 0
     ∧ ∃ d s fileName lines,
         parseArguments argv false false [] = Parsed d s fileName
         ∧ files fileName = Some lines
         ∧ r.1 = Line <$> main d s lines
         ∧ (last r.1 = Some (Line NotInserted) ↔ ¬ NoDup (cleaned lines))
         ∧ (NoDup (cleaned lines) → ∃ a b n, last r.1 = Some (Line (Report a b n)))).
Proof.
  cbv zeta. unfold run.
  destruct (parseArguments argv false false []) as [out|d s f] eqn:Hp.
  { left. split; [done|]. left.
    apply parseArguments_exit_lines in Hp as (errs & -> & _). by exists errs. }
  destruct (files f) as [lines|] eqn:Hf.
  2:{ left. split; [done|]. right. by exists f. }
  right. split; [done|]. exists d, s, f, lines. do 3 (split; [done|]). simpl.
  assert (hashed_ok (hashStringFile lines) = true ↔ NoDup (cleaned lines)) as Hok.
  { unfold hashStringFile. rewrite hashLines_ok. set_solver. }
  unfold main. destruct (hashed_ok (hashStringFile lines)) eqn:Hh.
  - assert (NoDup (cleaned lines)) as Hnd by (by apply Hok).
    rewrite (assoc_L (++)), fmap_snoc, last_snoc. split.
    + split; [done|]. intros Hdup. by destruct Hdup.
    + intros _. eauto.
  - pose proof (hashLines_failed lines ∅ ∅ Hh) as Hout.
    fold (hashStringFile lines) in Hout. rewrite Hout. simpl. split.
    + split; [|done]. intros _ Hnd. apply Hok in Hnd. congruence.
    + intros Hnd. apply Hok in Hnd. congruence.
Qed.

Lemma run_status_witness :
  ∃ a b n, last (run (filesOf abLines) argvBoth).1 = Some (Line (Report a b n)).
Proof.
  destruct (run_status (filesOf abLines) argvBoth)
    as [[H1 _]|[_ (d & s & f & lines & Hp & Hf & _ & _ & Hrep)]].
  - by vm_compute in H1.
  - apply Hrep. vm_compute in Hp. injection Hp as <- <- <-.
    vm_compute in Hf. injection Hf as <-.
    apply (bool_decide_unpack _). by vm_compute.
Defined.
